(** * annoliate: the router and its route model

    A shallow embedding of [src/annoliate/router.py] (and of the one
    exception of [src/annoliate/exceptions.py] the router raises),
    followed by the properties of the routing data structure.

    Python values are modelled as follows.
    - [str] is [string]; a character is an [ascii].
    - An exception is a constructor of [Exn]; a computation that may raise
      and that may mutate the router is a function [World -> Result A * World]
      (the monad [M]): a [Raise] keeps the mutations made before it, as in
      Python.
    - A route object is a record of its slots; a slot that was never
      assigned is [None] and reading it raises [AttributeError].  Objects
      have an identity ([oid]), drawn from the allocation counter of the
      world.
    - [dict]s keyed by strings and sentinels are [gmap]s; the static lookup,
      keyed by route objects through their [__hash__] and [__eq__], is an
      association list searched with Python's key comparison.
    - A handler is an opaque reference, a number here.

    [_DynamicRoute.extract_captures] and the [__repr__]/[__str__] methods
    are called by nothing in the router; they are modelled after it, with
    the notions their properties need. *)

From stdpp Require Import base option list strings gmap fin_maps countable.
From Stdlib Require Import Ascii String.

Local Open Scope string_scope.

(** ** Exceptions *)

(** The messages of the [ValueError]s that registration can raise. *)
Inductive ValueErrorMsg : Type :=
  | FormatterError            (* raised inside string.Formatter.parse *)
  | MultipleCaptures          (* 'cannot have multiple captures per segment!' *)
  | NotEnoughValuesToUnpack   (* [stdlib_tuple, = stdlib_tuples] on [[]] *)
  | NoSpecNorConversion       (* 'support no spec nor conversion!' *)
  | CaptureMustBeNamed        (* 'capture segments must be named!' *)
  | SingleCapturePerSegment   (* 'can only have a single capture per path segment!' *)
  | UnpackSegment             (* [for index, segment in ...] on a str not of length 2 *)
  | RouteAlreadyFound.        (* 'Route already found in router!' *)

Inductive Exn : Type :=
  | ValueError (msg : ValueErrorMsg)
  | AttributeError
  | TypeError
  | IndexError
  | KeyError
  | MissingRoute.

#[global] Instance ValueErrorMsg_eq_dec : EqDecision ValueErrorMsg.
Proof. solve_decision. Defined.
#[global] Instance Exn_eq_dec : EqDecision Exn.
Proof. solve_decision. Defined.

(** The error kinds of the interface, as the code raises them: a malformed
    template is any [ValueError] coming out of [_Route.make], a duplicate is
    the [ValueError] of [Router.register]. *)
Definition is_InvalidRouteTemplate (e : Exn) : bool :=
  match e with
  | ValueError RouteAlreadyFound => false
  | ValueError _ => true
  | _ => false
  end.

Definition is_DuplicateRoute (e : Exn) : bool :=
  match e with
  | ValueError RouteAlreadyFound => true
  | _ => false
  end.

Inductive Result (A : Type) : Type :=
  | Ok (a : A)
  | Raise (e : Exn).
Arguments Ok {A} a.
Arguments Raise {A} e.

Definition rbind {A B} (r : Result A) (k : A -> Result B) : Result B :=
  match r with
  | Ok a => k a
  | Raise e => Raise e
  end.

(** ** Strings *)

(** [s.split(sep)] for a one-character separator. *)
Fixpoint str_split (sep : ascii) (s : string) : list string :=
  match s with
  | EmptyString => [EmptyString]
  | String c rest =>
      if Ascii.eqb c sep then EmptyString :: str_split sep rest
      else match str_split sep rest with
           | hd :: tl => String c hd :: tl
           | [] => [String c EmptyString]
           end
  end.

Definition is_brace (c : ascii) : bool :=
  Ascii.eqb c "{" || Ascii.eqb c "}".

(** A string without any brace, that is without template syntax. *)
Fixpoint brace_free (s : string) : bool :=
  match s with
  | EmptyString => true
  | String c rest => negb (is_brace c) && brace_free rest
  end.

Definition str_truthy (s : string) : bool :=
  match s with
  | EmptyString => false
  | _ => true
  end.

(** ** [string.Formatter.parse]

    The template parser goes through the standard library's
    [string.Formatter().parse], which is CPython's [_string.formatter_parser]:
    the functions below follow [MarkupIterator_next] and [parse_field] of
    [Objects/stringlib/unicode_format.h].  Every error there is a
    [ValueError]. *)

(** One item of the parse: [(literal_text, field_name, format_spec,
    conversion)], [None] for Python's [None]. *)
Definition FormatTuple : Type :=
  (string * option string * option string * option string)%type.

Definition consl {B} (c : ascii) (r : Result (string * B)) : Result (string * B) :=
  rbind r (fun '(s, b) => Ok (String c s, b)).

(** The first loop of [MarkupIterator_next]: read up to and including the
    first brace.  Returns the text before it and, when there is one, the
    brace and what follows it. *)
Fixpoint scan_brace (s : string) : string * option (ascii * string) :=
  match s with
  | EmptyString => (EmptyString, None)
  | String c rest =>
      if is_brace c then (EmptyString, Some (c, rest))
      else let '(lit, r) := scan_brace rest in (String c lit, r)
  end.

(** The field-name loop of [parse_field]: the name ends at ['}'], [':'] or
    ['!'], which is returned with the rest; ['['] skips to the next [']'];
    ['{'] and the end of the string are errors.  [inb] tells that the scan
    is inside brackets. *)
Fixpoint scan_field_name (inb : bool) (s : string) : Result (string * (ascii * string)) :=
  match s with
  | EmptyString => Raise (ValueError FormatterError)
  | String c rest =>
      if inb then
        consl c (scan_field_name (negb (Ascii.eqb c "]")) rest)
      else if Ascii.eqb c "{" then Raise (ValueError FormatterError)
      else if Ascii.eqb c "[" then consl c (scan_field_name true rest)
      else if Ascii.eqb c "}" || Ascii.eqb c ":" || Ascii.eqb c "!"
           then Ok (EmptyString, (c, rest))
      else consl c (scan_field_name false rest)
  end.

(** The format-spec loop of [parse_field]: up to the ['}'] that closes the
    field, counting nested braces ([count] is at least 1). *)
Fixpoint scan_format_spec (count : nat) (s : string) : Result (string * string) :=
  match s with
  | EmptyString => Raise (ValueError FormatterError)
  | String c rest =>
      if Ascii.eqb c "{" then consl c (scan_format_spec (S count) rest)
      else if Ascii.eqb c "}" then
        match count with
        | 0 | 1 => Ok (EmptyString, rest)
        | S n => consl c (scan_format_spec n rest)
        end
      else consl c (scan_format_spec count rest)
  end.

(** The conversion character as [formatteriter_next] returns it: [None] when
    it is the NUL character the iterator starts from. *)
Definition conversion_str (c : ascii) : option string :=
  if Ascii.eqb c zero then None else Some (String c EmptyString).

(** [parse_field]: from just after the opening brace.  Returns
    [(field_name, format_spec, conversion)] and the rest of the input. *)
Definition parse_field (s : string)
  : Result (string * string * option string * string) :=
  rbind (scan_field_name false s) (fun '(name, (c, rest)) =>
    if Ascii.eqb c "}" then Ok (name, EmptyString, None, rest)
    else if Ascii.eqb c "!" then
      match rest with
      | EmptyString => Raise (ValueError FormatterError)
      | String cv rest1 =>
          match rest1 with
          | EmptyString => Raise (ValueError FormatterError)
          | String c2 rest2 =>
              if Ascii.eqb c2 "}" then
                Ok (name, EmptyString, conversion_str cv, rest2)
              else if Ascii.eqb c2 ":" then
                rbind (scan_format_spec 1 rest2) (fun '(spec, rest3) =>
                  Ok (name, spec, conversion_str cv, rest3))
              else Raise (ValueError FormatterError)
          end
      end
    else
      rbind (scan_format_spec 1 rest) (fun '(spec, rest') =>
        Ok (name, spec, None, rest'))).

(** [MarkupIterator_next]: [Ok None] at the end of the input, else one
    tuple and the rest of the input. *)
Definition markup_next (s : string) : Result (option (FormatTuple * string)) :=
  match s with
  | EmptyString => Ok None
  | _ =>
      match scan_brace s with
      | (lit, None) => Ok (Some ((lit, None, None, None), EmptyString))
      | (lit, Some (c, rest)) =>
          match rest with
          | EmptyString => Raise (ValueError FormatterError)
          | String c' rest' =>
              if Ascii.eqb c c' then
                (* a doubled brace is one literal brace, no markup follows *)
                Ok (Some ((lit ++ String c EmptyString, None, None, None), rest'))
              else if Ascii.eqb c "}" then Raise (ValueError FormatterError)
              else
                rbind (parse_field rest) (fun '(name, spec, conv, rest2) =>
                  Ok (Some ((lit, Some name, Some spec, conv), rest2)))
          end
      end
  end.

(** [list(_FORMATTER.parse(s))]: the iterator run to its end.  Each call of
    [markup_next] consumes at least one character, so [fuel] above the
    length of the input is never used up (see [formatter_fuel]). *)
Fixpoint formatter_loop (fuel : nat) (s : string) : Result (list FormatTuple) :=
  match fuel with
  | 0 => Ok []
  | S fuel' =>
      rbind (markup_next s) (fun o =>
        match o with
        | None => Ok []
        | Some (t, rest) => rbind (formatter_loop fuel' rest) (fun ts => Ok (t :: ts))
        end)
  end.

Definition formatter_parse (s : string) : Result (list FormatTuple) :=
  formatter_loop (S (String.length s)) s.

(** ** Route model *)

(** A segment of a route: a [str], or a [_CaptureSegment(name)] (a frozen
    dataclass, compared by its name and never equal to a [str]). *)
Inductive Segment : Type :=
  | Lit (s : string)
  | Cap (name : string).

#[global] Instance Segment_eq_dec : EqDecision Segment.
Proof. solve_decision. Defined.

(** Handlers are opaque references. *)
Definition Handler : Type := nat.

Inductive RouteClass : Type := StaticRoute | DynamicRoute.

#[global] Instance RouteClass_eq_dec : EqDecision RouteClass.
Proof. solve_decision. Defined.

(** A [_Route] object.  [oid] is the identity of the object and [cls] its
    class.  [_hash] is the slot set by [_Route.__init__]: the hash of
    [tuple(segments)], represented by the tuple itself (equal tuples have
    equal hashes; no collision between different tuples is modelled).
    [segments], [capture_map] and [handler] are the other slots, [None]
    while unassigned. *)
Record Route : Type := mkRoute {
  oid : nat;
  cls : RouteClass;
  _hash : list Segment;
  segments : option (list Segment);
  capture_map : option (gmap nat string);
  handler : option Handler
}.

Definition set_handler (r : Route) (h : Handler) : Route :=
  mkRoute (oid r) (cls r) (_hash r) (segments r) (capture_map r) (Some h).

Definition set_capture_map (r : Route) (cm : gmap nat string) : Route :=
  mkRoute (oid r) (cls r) (_hash r) (segments r) (Some cm) (handler r).

(** [_Route.__eq__]: [self.segments == other.segments], and
    [NotImplemented] ([None] here) when reading a slot raises
    [AttributeError]. *)
Definition Route___eq__ (self other : Route) : option bool :=
  match segments self, segments other with
  | Some a, Some b => Some (bool_decide (a = b))
  | _, _ => None
  end.

(** [a is b]. *)
Definition py_is (a b : Route) : bool := Nat.eqb (oid a) (oid b).

(** [a == b] between two routes: [a.__eq__(b)], then the reflected
    [b.__eq__(a)], then, both being [NotImplemented], identity. *)
Definition py_eq (a b : Route) : bool :=
  match Route___eq__ a b with
  | Some r => r
  | None =>
      match Route___eq__ b a with
      | Some r => r
      | None => py_is a b
      end
  end.

(** ** Dictionaries keyed by routes *)

(** How a [dict] compares a stored key with the key looked up: equal
    hashes, then identity or [==]. *)
Definition key_match (stored key : Route) : bool :=
  bool_decide (_hash stored = _hash key) && (py_is stored key || py_eq stored key).

Definition RouteDict : Type := list (Route * Handler).

(** [key in d] *)
Definition dict_contains (d : RouteDict) (key : Route) : bool :=
  existsb (fun kv => key_match (fst kv) key) d.

(** [d[key]] *)
Definition dict_get (d : RouteDict) (key : Route) : Result Handler :=
  match List.find (fun kv => key_match (fst kv) key) d with
  | Some kv => Ok (snd kv)
  | None => Raise KeyError
  end.

(** [d[key] = v]: the value of a matching entry is replaced (its key object
    stays), else a new entry is added. *)
Fixpoint dict_set (d : RouteDict) (key : Route) (v : Handler) : RouteDict :=
  match d with
  | [] => [(key, v)]
  | kv :: d' =>
      if key_match (fst kv) key then (fst kv, v) :: d'
      else kv :: dict_set d' key v
  end.

(** ** The dynamic lookup tree *)

(** The keys under which a node of [_dynamic_lookup] holds a child: a
    literal segment or the sentinel [CAPTURE_SEGMENT]. *)
Inductive Key : Type :=
  | KLit (s : string)
  | CAPTURE_SEGMENT.

#[global] Instance Key_eq_dec : EqDecision Key.
Proof. solve_decision. Defined.

#[global] Instance Key_countable : Countable Key.
Proof.
  refine (inj_countable'
            (fun k => match k with KLit s => Some s | CAPTURE_SEGMENT => None end)
            (fun o => match o with Some s => KLit s | None => CAPTURE_SEGMENT end) _).
  intros []; reflexivity.
Defined.

(** A node of the tree is one [dict].  Its entries under a [str] or under
    [CAPTURE_SEGMENT] are child nodes ([children]); its entry under the
    sentinel [TERMINATOR], when present, is a route ([terminator]).  The
    sentinels are [object()]s, equal to nothing but themselves, so the
    three kinds of keys never collide. *)
#[warnings="-register-all"]
Inductive Node : Type :=
  mkNode { children : gmap Key Node; terminator : option Route }.

(** [{}] *)
Definition empty_node : Node := mkNode ∅ None.

(** [node[key] = child] *)
Definition set_child (node : Node) (key : Key) (child : Node) : Node :=
  mkNode (<[key := child]> (children node)) (terminator node).

(** ** The router and the world *)

Record Router : Type := mkRouter {
  _static_lookup : RouteDict;
  _dynamic_lookup : Node
}.

(** [Router.__init__] *)
Definition new_router : Router := mkRouter [] empty_node.

(** The state a computation runs in: the router and the number of objects
    allocated so far, from which the identity of the next one is taken. *)
Record World : Type := mkWorld {
  heap_next : nat;
  router : Router
}.

Definition initial_world : World := mkWorld 0 new_router.

(** Computations that may raise and may mutate the world. *)
Definition M (A : Type) : Type := World -> Result A * World.

Definition ret {A} (a : A) : M A := fun w => (Ok a, w).

Definition raise {A} (e : Exn) : M A := fun w => (Raise e, w).

Definition bind {A B} (m : M A) (k : A -> M B) : M B :=
  fun w =>
    match m w with
    | (Ok a, w') => k a w'
    | (Raise e, w') => (Raise e, w')
    end.

Definition lift {A} (r : Result A) : M A := fun w => (r, w).

#[global] Instance M_ret : MRet M := @ret.
#[global] Instance M_bind : MBind M := fun A B k m => bind m k.

Definition get_static : M RouteDict := fun w => (Ok (_static_lookup (router w)), w).
Definition get_dynamic : M Node := fun w => (Ok (_dynamic_lookup (router w)), w).

Definition put_static (d : RouteDict) : M unit :=
  fun w => (Ok tt, mkWorld (heap_next w) (mkRouter d (_dynamic_lookup (router w)))).

Definition put_dynamic (n : Node) : M unit :=
  fun w => (Ok tt, mkWorld (heap_next w) (mkRouter (_static_lookup (router w)) n)).

(** A new object: its identity. *)
Definition alloc : M nat :=
  fun w => (Ok (heap_next w), mkWorld (S (heap_next w)) (router w)).

(** Reading the slots of a route. *)
Definition get_segments (r : Route) : M (list Segment) :=
  match segments r with
  | Some s => ret s
  | None => raise AttributeError
  end.

Definition get_handler (r : Route) : M Handler :=
  match handler r with
  | Some h => ret h
  | None => raise AttributeError
  end.

(** ** Constructors of the routes *)

(** [_Route.__init__(self, segments)]: allocates the object and sets
    [_hash]; it assigns no other slot, [segments] stays unset. *)
Definition Route___init__ (c : RouteClass) (segs : list Segment) : M Route :=
  i ← alloc;
  mret (mkRoute i c segs None None None).

(** [index, segment = element] in [_DynamicRoute.__init__]: only a [str] of
    two characters unpacks (into two one-character strings); any other
    [str] raises [ValueError], a [_CaptureSegment] is not iterable.  After
    an unpacking that succeeds [segment] is a [str], so the body of the loop
    assigns nothing to the capture map. *)
Definition unpack_pair (element : Segment) : Result (string * string) :=
  match element with
  | Lit (String a (String b EmptyString)) =>
      Ok (String a EmptyString, String b EmptyString)
  | Lit _ => Raise (ValueError UnpackSegment)
  | Cap _ => Raise TypeError
  end.

Fixpoint capture_map_loop (elements : list Segment) (capture_map : gmap nat string)
  : Result (gmap nat string) :=
  match elements with
  | [] => Ok capture_map
  | element :: rest =>
      rbind (unpack_pair element) (fun _ => capture_map_loop rest capture_map)
  end.

(** [_DynamicRoute.__init__(self, segments)] *)
Definition DynamicRoute___init__ (segs : list Segment) : M Route :=
  self ← Route___init__ DynamicRoute segs;
  elements ← get_segments self;
  capture_map ← lift (capture_map_loop elements ∅);
  mret (set_capture_map self capture_map).

(** [_StaticRoute(segments)] *)
Definition StaticRoute___init__ (segs : list Segment) : M Route :=
  Route___init__ StaticRoute segs.

(** ** [_Route.make] *)

(** The normalisation of the leading slash: [components[1:]] when
    [components[0] == '']. *)
Definition drop_leading_empty (components : list string) : list string :=
  match components with
  | EmptyString :: rest => rest
  | _ => components
  end.

Definition opt_truthy (o : option string) : bool :=
  match o with
  | Some s => str_truthy s
  | None => false
  end.

(** The body of the loop over the components: the segment that the
    component yields. *)
Definition make_segment (component : string) : Result Segment :=
  rbind (formatter_parse component) (fun stdlib_tuples =>
    if Nat.ltb 1 (List.length stdlib_tuples) then Raise (ValueError MultipleCaptures)
    else
      match stdlib_tuples with
      | [] => Raise (ValueError NotEnoughValuesToUnpack)
      | (literal_text, field_name, fmt_spec, conversion) :: _ =>
          if opt_truthy fmt_spec || opt_truthy conversion
          then Raise (ValueError NoSpecNorConversion)
          else if bool_decide (field_name = Some EmptyString)
          then Raise (ValueError CaptureMustBeNamed)
          else if bool_decide (literal_text = EmptyString)
          then Raise (ValueError SingleCapturePerSegment)
          else
            match field_name with
            | None => Ok (Lit literal_text)
            | Some name => Ok (Cap name)
            end
      end).

Definition is_capture (seg : Segment) : bool :=
  match seg with
  | Cap _ => true
  | Lit _ => false
  end.

(** The loop of [make]: [segments] and [is_dynamic] as it leaves them. *)
Fixpoint make_loop (components : list string) (segs : list Segment) (is_dynamic : bool)
  : Result (list Segment * bool) :=
  match components with
  | [] => Ok (segs, is_dynamic)
  | component :: rest =>
      rbind (make_segment component) (fun seg =>
        make_loop rest (segs ++ [seg]) (is_capture seg || is_dynamic))
  end.

(** [_Route.make(path_str)] *)
Definition make (path_str : string) : M Route :=
  let components := drop_leading_empty (str_split "/" path_str) in
  '(segs, is_dynamic) ← lift (make_loop components [] false);
  if is_dynamic : bool then DynamicRoute___init__ segs
  else StaticRoute___init__ segs.

(** ** [_StaticRoute.parse] *)

Definition parse (well_formed_path : string) : M Route :=
  match well_formed_path with
  | EmptyString => raise IndexError
  | String c rest =>
      if Ascii.eqb c "/" then StaticRoute___init__ (Lit <$> str_split "/" rest)
      else StaticRoute___init__ (Lit <$> str_split "/" well_formed_path)
  end.

(** ** [Router] *)

(** [segment in current_lookup] and [current_lookup[segment]] for a segment
    of an incoming route: a [_CaptureSegment] is never a key of the tree. *)
Definition child_of (node : Node) (segment : Segment) : option Node :=
  match segment with
  | Lit s => children node !! KLit s
  | Cap _ => None
  end.

(** The loop of [Router._dispatch_dynamic] from [current_lookup], and the
    test of [TERMINATOR] after it. *)
Fixpoint walk (current_lookup : Node) (segs : list Segment) : Result Route :=
  match segs with
  | [] =>
      match terminator current_lookup with
      | Some route => Ok route
      | None => Raise MissingRoute
      end
  | segment :: rest =>
      match child_of current_lookup segment with
      | Some child => walk child rest
      | None =>
          match children current_lookup !! CAPTURE_SEGMENT with
          | Some child => walk child rest
          | None => Raise MissingRoute
          end
      end
  end.

(** [Router._dispatch_dynamic(incoming_route)] *)
Definition _dispatch_dynamic (incoming_route : Route) : M Route :=
  current_lookup ← get_dynamic;
  segs ← get_segments incoming_route;
  lift (walk current_lookup segs).

(** [Router.dispatch(incoming_route)]: it returns a handler, and nothing
    else. *)
Definition dispatch (incoming_route : Route) : M Handler :=
  static ← get_static;
  if dict_contains static incoming_route
  then lift (dict_get static incoming_route)
  else
    route ← _dispatch_dynamic incoming_route;
    get_handler route.

(** The key a segment of a registered route is stored under. *)
Definition trie_key (segment : Segment) : Key :=
  match segment with
  | Cap _ => CAPTURE_SEGMENT
  | Lit s => KLit s
  end.

(** The loop of [Router.register] over the segments, from [current_lookup]:
    it walks down the tree, linking a new [{}] where a key is missing.
    Returns the node it started from, as the loop leaves it, and the node
    it ends on. *)
Fixpoint extend (current_lookup : Node) (keys : list Key) : Node * Node :=
  match keys with
  | [] => (current_lookup, current_lookup)
  | key :: rest =>
      match children current_lookup !! key with
      | Some child =>
          let '(child', final) := extend child rest in
          (set_child current_lookup key child', final)
      | None =>
          let '(new_lookup, final) := extend empty_node rest in
          (set_child current_lookup key new_lookup, final)
      end
  end.

(** [Router.register] from the route that [_Route.make] returned.  In the
    dynamic branch the nodes are linked into the tree while walking, before
    the test of [TERMINATOR]; the assignment [current_lookup[TERMINATOR] =
    route] stands in the block of the [raise], after it, and is never
    executed.  The route is taken by value, as the new object that
    [register] gets from [make]: [route.handler = handler] changes no
    route that the tree holds (see [not_stored]). *)
Definition register_route (route : Route) (h : Handler) (allow_overwrite : bool)
  : M unit :=
  match cls route with
  | StaticRoute =>
      static ← get_static;
      if dict_contains static route && negb allow_overwrite
      then raise (ValueError RouteAlreadyFound)
      else put_static (dict_set static route h)
  | DynamicRoute =>
      let route := set_handler route h in
      current_lookup ← get_dynamic;
      segs ← get_segments route;
      let '(root, final) := extend current_lookup (trie_key <$> segs) in
      put_dynamic root;;
      if bool_decide (is_Some (terminator final)) && negb allow_overwrite
      then raise (ValueError RouteAlreadyFound)
      else mret tt
  end.

(** [Router.register(route_str, handler, allow_overwrite=False)] *)
Definition register (route_str : string) (h : Handler) (allow_overwrite : bool)
  : M unit :=
  route ← make route_str;
  register_route route h allow_overwrite.

(** ** Notions the properties are stated with *)

(** A route that some choice of children reaches: at each segment either
    the child under the literal or the child under [CAPTURE_SEGMENT]. *)
Inductive matches : Node -> list Segment -> Route -> Prop :=
  | matches_end node route :
      terminator node = Some route ->
      matches node [] route
  | matches_literal node s rest child route :
      children node !! KLit s = Some child ->
      matches child rest route ->
      matches node (Lit s :: rest) route
  | matches_capture node segment rest child route :
      children node !! CAPTURE_SEGMENT = Some child ->
      matches child rest route ->
      matches node (segment :: rest) route.

(** What a client can do with a router: register a template, parse an
    incoming path, make a route, dispatch a route. *)
Inductive step : World -> World -> Prop :=
  | step_register route_str h allow_overwrite w :
      step w (snd (register route_str h allow_overwrite w))
  | step_make path_str w :
      step w (snd (make path_str w))
  | step_parse path w :
      step w (snd (parse path w))
  | step_dispatch incoming_route w :
      step w (snd (dispatch incoming_route w)).

Definition reachable (w : World) : Prop := rtc step initial_world w.

(** The keys of the static lookup are objects allocated earlier, without
    [segments]; the dynamic lookup is the [{}] of [Router.__init__]. *)
Definition router_inv (w : World) : Prop :=
  Forall (fun kv => oid (fst kv) < heap_next w /\ segments (fst kv) = None)
         (_static_lookup (router w))
  /\ _dynamic_lookup (router w) = empty_node.

(** The agreement of the two parsers on a path: from any world both return
    a [_StaticRoute], over the same tuple of segments. *)
Definition parsers_agree (path : string) : Prop :=
  forall w, exists r1 w1 r2 w2,
    make path w = (Ok r1, w1) /\ parse path w = (Ok r2, w2)
    /\ cls r1 = StaticRoute /\ cls r2 = StaticRoute
    /\ _hash r1 = _hash r2.

(** ** Example states *)

(** Route objects with their slots filled in by hand, as the classes are
    documented to hold them, and trees that hold such routes. *)
Definition route_a_x_c : Route :=
  mkRoute 0 DynamicRoute [Lit "a"; Cap "x"; Lit "c"]
    (Some [Lit "a"; Cap "x"; Lit "c"]) (Some {[1 := "x"]}) (Some 1).

Definition route_a_b_d : Route :=
  mkRoute 1 StaticRoute [Lit "a"; Lit "b"; Lit "d"]
    (Some [Lit "a"; Lit "b"; Lit "d"]) None (Some 2).

(** The tree of the patterns [/a/{x}/c] and [/a/b/d]. *)
Definition overlapping_tree : Node :=
  mkNode
    {[ KLit "a" :=
         mkNode
           (<[ KLit "b" := mkNode {[ KLit "d" := mkNode ∅ (Some route_a_b_d) ]} None ]>
              {[ CAPTURE_SEGMENT :=
                   mkNode {[ KLit "c" := mkNode ∅ (Some route_a_x_c) ]} None ]})
           None ]}
    None.

Definition route_users_id : Route :=
  mkRoute 0 DynamicRoute [Lit "users"; Cap "id"]
    (Some [Lit "users"; Cap "id"]) (Some {[1 := "id"]}) (Some 1).

Definition route_users_name : Route :=
  mkRoute 1 DynamicRoute [Lit "users"; Cap "name"]
    (Some [Lit "users"; Cap "name"]) (Some {[1 := "name"]}) None.

(** A router whose tree holds [/users/{id}] under its terminator. *)
Definition users_world : World :=
  mkWorld 2
    (mkRouter []
       (mkNode
          {[ KLit "users" :=
               mkNode {[ CAPTURE_SEGMENT := mkNode ∅ (Some route_users_id) ]} None ]}
          None)).

(** An incoming route for [/users/42] with its segments in place. *)
Definition incoming_users_42 : Route :=
  mkRoute 2 StaticRoute [Lit "users"; Lit "42"]
    (Some [Lit "users"; Lit "42"]) None None.

(** ** Display forms *)

(** [sep.join(parts)] *)
Fixpoint str_join (sep : string) (parts : list string) : string :=
  match parts with
  | [] => EmptyString
  | [part] => part
  | part :: rest => part ++ sep ++ str_join sep rest
  end.

(** [str(segment)]: a [str] is itself, [_CaptureSegment.__str__] wraps the
    name in braces. *)
Definition Segment___str__ (segment : Segment) : string :=
  match segment with
  | Lit s => s
  | Cap name => "{" ++ name ++ "}"
  end.

(** [type(self).__name__] *)
Definition class_name (c : RouteClass) : string :=
  match c with
  | StaticRoute => "_StaticRoute"
  | DynamicRoute => "_DynamicRoute"
  end.

(** [_Route.__repr__] *)
Definition Route___repr__ (self : Route) : M string :=
  segs ← get_segments self;
  let route_str := "/" ++ str_join "/" (Segment___str__ <$> segs) in
  mret ("<" ++ class_name (cls self) ++ " (" ++ route_str ++ ")>").

(** ** [_DynamicRoute.extract_captures] *)

Definition get_capture_map (r : Route) : M (gmap nat string) :=
  match capture_map r with
  | Some m => ret m
  | None => raise AttributeError
  end.

(** The dictionary comprehension [{name: static_segments[index] for index,
    name in items}]: the items are taken in order, a later one replaces an
    earlier one of the same name, an index past the end raises
    [IndexError]. *)
Fixpoint captures_loop (items : list (nat * string)) (static_segments : list Segment)
    (captures : gmap string Segment) : Result (gmap string Segment) :=
  match items with
  | [] => Ok captures
  | (index, name) :: rest =>
      match static_segments !! index with
      | Some value => captures_loop rest static_segments (<[name := value]> captures)
      | None => Raise IndexError
      end
  end.

(** [self.capture_map.items()].  A [dict] yields its items in the order in
    which its keys were inserted; the [gmap] does not record that order, so
    it is given beside it, as the list [order] of the keys. *)
Definition items_in_order (capture_map : gmap nat string) (order : list nat)
  : list (nat * string) :=
  omap (fun index => (fun name => (index, name)) <$> capture_map !! index) order.

(** [order] lists the keys of [capture_map], each once. *)
Definition is_insertion_order (capture_map : gmap nat string) (order : list nat) : Prop :=
  NoDup order /\ forall index, index ∈ order <-> is_Some (capture_map !! index).

(** [extract_captures(self, static_route)], for a capture map whose keys
    were inserted in the order [order]. *)
Definition extract_captures (self : Route) (order : list nat) (static_route : Route)
  : M (gmap string Segment) :=
  static_segments ← get_segments static_route;
  capture_map ← get_capture_map self;
  lift (captures_loop (items_in_order capture_map order) static_segments ∅).

(** ** More notions the properties are stated with *)

(** The node that a list of keys leads to from a node, if there is one. *)
Fixpoint descend (node : Node) (keys : list Key) : option Node :=
  match keys with
  | [] => Some node
  | key :: rest =>
      match children node !! key with
      | Some child => descend child rest
      | None => None
      end
  end.

(** [route.segments = segs], as a caller can assign the slot that the
    constructors leave unset. *)
Definition set_segments (r : Route) (segs : list Segment) : Route :=
  mkRoute (oid r) (cls r) (_hash r) (Some segs) (capture_map r) (handler r).

(** A route that was built by one of the two parsers, from the world [w]. *)
Definition built (w : World) (r : Route) (w' : World) : Prop :=
  (exists path, parse path w = (Ok r, w')) \/ (exists path, make path w = (Ok r, w')).

(** The keys of the static lookup are never the route a client holds. *)
Definition foreign_keys (r : Route) (w : World) : Prop :=
  router_inv w
  /\ oid r < heap_next w
  /\ Forall (fun kv => oid (fst kv) <> oid r) (_static_lookup (router w)).

(** A string without any slash. *)
Fixpoint slash_free (s : string) : bool :=
  match s with
  | EmptyString => true
  | String c rest => negb (Ascii.eqb c "/") && slash_free rest
  end.

(** [path[0] == '/'] on a non-empty path, false on the empty one. *)
Definition begins_with_slash (path : string) : bool :=
  match path with
  | String c _ => Ascii.eqb c "/"
  | EmptyString => false
  end.

(** The route that the loop of [_dispatch_dynamic] reaches: at each segment
    the child under the literal key if there is one, the child under
    [CAPTURE_SEGMENT] only if there is none. *)
Inductive greedy : Node -> list Segment -> Route -> Prop :=
  | greedy_end node route :
      terminator node = Some route ->
      greedy node [] route
  | greedy_literal node segment rest child route :
      child_of node segment = Some child ->
      greedy child rest route ->
      greedy node (segment :: rest) route
  | greedy_capture node segment rest child route :
      child_of node segment = None ->
      children node !! CAPTURE_SEGMENT = Some child ->
      greedy child rest route ->
      greedy node (segment :: rest) route.

(** The route object is not one of those stored under a terminator of the
    tree.  [register_route] takes the route by value; the assignment
    [route.handler = handler] of the code would show through the tree only
    if the very object were stored there already, which is not the case of
    the new route that [register] makes. *)
Definition not_stored (route : Route) (node : Node) : Prop :=
  forall keys n r,
    descend node keys = Some n -> terminator n = Some r -> oid r <> oid route.

(** A capture map with one name at two positions. *)
Definition route_n_n : Route :=
  mkRoute 0 DynamicRoute [Cap "n"; Lit "b"; Cap "n"]
    (Some [Cap "n"; Lit "b"; Cap "n"]) (Some (<[0 := "n"]> {[2 := "n"]})) (Some 1).

Definition incoming_a_b_c : Route :=
  mkRoute 1 StaticRoute [Lit "a"; Lit "b"; Lit "c"]
    (Some [Lit "a"; Lit "b"; Lit "c"]) None None.

(** The tree that holds [/a/{x}] under its terminator. *)
Definition route_a_x : Route :=
  mkRoute 0 DynamicRoute [Lit "a"; Cap "x"]
    (Some [Lit "a"; Cap "x"]) (Some {[1 := "x"]}) (Some 1).

Definition a_x_world : World :=
  mkWorld 3
    (mkRouter []
       (mkNode
          {[ KLit "a" :=
               mkNode {[ CAPTURE_SEGMENT := mkNode ∅ (Some route_a_x) ]} None ]}
          None)).

(** A static route with its segments, and the incoming route [/a/b]. *)
Definition route_a_b : Route :=
  mkRoute 1 StaticRoute [Lit "a"; Lit "b"] (Some [Lit "a"; Lit "b"]) None None.

(** A dynamic route [/a/b/{y}] with its segments. *)
Definition route_a_b_y : Route :=
  mkRoute 2 DynamicRoute [Lit "a"; Lit "b"; Cap "y"]
    (Some [Lit "a"; Lit "b"; Cap "y"]) (Some {[2 := "y"]}) None.

(** ** Proof automation *)

Ltac unfold_M :=
  unfold mbind, mret, M_bind, M_ret, bind, ret, raise, lift,
    get_static, get_dynamic, put_static, put_dynamic, alloc in *.

(** * Properties *)

(** ** The formatter *)

Lemma consl_Ok {B} (c : ascii) (r : Result (string * B)) (s : string) (b : B) :
  consl c r = Ok (s, b) -> exists s', r = Ok (s', b) /\ s = String c s'.
Proof.
  destruct r as [[s' b']|e]; simpl; intros H; [|discriminate].
  injection H as <- <-. eauto.
Qed.

Lemma consl_Raise {B} (c : ascii) (r : Result (string * B)) (e : Exn) :
  consl c r = Raise e -> r = Raise e.
Proof. destruct r as [[s' b']|e']; simpl; congruence. Qed.

Lemma scan_brace_shorter (s lit rest : string) (c : ascii) :
  scan_brace s = (lit, Some (c, rest)) -> String.length rest < String.length s.
Proof.
  revert lit. induction s as [|a s IH]; simpl; intros lit H; [discriminate|].
  destruct (is_brace a).
  - injection H as _ _ <-. lia.
  - destruct (scan_brace s) as [lit' [[c' rest']|]]; [|discriminate].
    injection H as _ -> ->. specialize (IH _ eq_refl). lia.
Qed.

Lemma scan_field_name_shorter (s : string) :
  forall inb name c rest,
    scan_field_name inb s = Ok (name, (c, rest)) ->
    String.length rest < String.length s.
Proof.
  induction s as [|a s IH]; simpl; intros inb name c rest H; [discriminate|].
  repeat case_match; simplify_eq; simpl; try lia;
    apply consl_Ok in H as (? & H & _); apply IH in H; lia.
Qed.

Lemma scan_format_spec_shorter (s : string) :
  forall count spec rest,
    scan_format_spec count s = Ok (spec, rest) ->
    String.length rest < String.length s.
Proof.
  induction s as [|a s IH]; simpl; intros count spec rest H; [discriminate|].
  repeat case_match; simplify_eq; simpl; try lia;
    apply consl_Ok in H as (? & H & _); apply IH in H; lia.
Qed.

Lemma parse_field_shorter (s name spec rest : string) (conv : option string) :
  parse_field s = Ok (name, spec, conv, rest) ->
  String.length rest < String.length s.
Proof.
  unfold parse_field. intros H.
  destruct (scan_field_name false s) as [[n [c r]]|e] eqn:E; simpl in H; [|discriminate].
  apply scan_field_name_shorter in E.
  repeat case_match; simplify_eq; simpl in *; try lia.
  - destruct (scan_format_spec 1 _) as [[sp r3]|] eqn:E3; simpl in H; simplify_eq.
    apply scan_format_spec_shorter in E3. lia.
  - destruct (scan_format_spec 1 _) as [[sp r3]|] eqn:E3; simpl in H; simplify_eq.
    apply scan_format_spec_shorter in E3. lia.
Qed.

(** Every call of the iterator consumes some input. *)
Lemma markup_next_shorter (s rest : string) (t : FormatTuple) :
  markup_next s = Ok (Some (t, rest)) -> String.length rest < String.length s.
Proof.
  unfold markup_next. destruct s as [|a s]; [discriminate|].
  destruct (scan_brace (String a s)) as [lit [[c r]|]] eqn:E.
  - apply scan_brace_shorter in E.
    destruct r as [|c' r']; [discriminate|].
    destruct (Ascii.eqb c c'); [intros H; simplify_eq; simpl in *; lia|].
    destruct (Ascii.eqb c "}"); [discriminate|].
    destruct (parse_field _) as [[[[n sp] cv] r2]|] eqn:E2; simpl; intros H; simplify_eq.
    apply parse_field_shorter in E2. simpl in *. lia.
  - intros H. simplify_eq. simpl. lia.
Qed.

(** The fuel of [formatter_parse] is enough: more of it changes nothing, so
    the result is never cut short. *)
Lemma formatter_fuel (n : nat) :
  forall m s, String.length s < n -> String.length s < m ->
    formatter_loop n s = formatter_loop m s.
Proof.
  induction n as [|n IH]; intros m s Hn Hm; [lia|].
  destruct m as [|m]; [lia|]. simpl.
  destruct (markup_next s) as [[[t rest]|]|e] eqn:E; simpl; try reflexivity.
  apply markup_next_shorter in E.
  rewrite (IH m rest) by lia. reflexivity.
Qed.

(** The formatter raises nothing but its [ValueError]. *)
Lemma scan_field_name_raises (s : string) :
  forall inb e, scan_field_name inb s = Raise e -> e = ValueError FormatterError.
Proof.
  induction s as [|a s IH]; simpl; intros inb e H; [congruence|].
  repeat case_match; simplify_eq; try reflexivity;
    apply consl_Raise in H; eauto.
Qed.

Lemma scan_format_spec_raises (s : string) :
  forall count e, scan_format_spec count s = Raise e -> e = ValueError FormatterError.
Proof.
  induction s as [|a s IH]; simpl; intros count e H; [congruence|].
  repeat case_match; simplify_eq; try reflexivity;
    apply consl_Raise in H; eauto.
Qed.

Lemma parse_field_raises (s : string) (e : Exn) :
  parse_field s = Raise e -> e = ValueError FormatterError.
Proof.
  unfold parse_field. intros H.
  destruct (scan_field_name false s) as [[n [c r]]|e'] eqn:E; simpl in H.
  - repeat case_match; simplify_eq; try reflexivity;
      destruct (scan_format_spec 1 _) as [[sp r3]|] eqn:E3; simpl in H; simplify_eq;
      eapply scan_format_spec_raises; eauto.
  - simplify_eq. eapply scan_field_name_raises; eauto.
Qed.

Lemma markup_next_raises (s : string) (e : Exn) :
  markup_next s = Raise e -> e = ValueError FormatterError.
Proof.
  unfold markup_next. intros H.
  repeat case_match; simplify_eq; try reflexivity.
  destruct (parse_field _) as [[[[n sp] cv] r2]|] eqn:E2; simpl in H; simplify_eq.
  eapply parse_field_raises; eauto.
Qed.

Lemma formatter_loop_raises (n : nat) :
  forall s e, formatter_loop n s = Raise e -> e = ValueError FormatterError.
Proof.
  induction n as [|n IH]; simpl; intros s e H; [discriminate|].
  destruct (markup_next s) as [[[t rest]|]|e'] eqn:E; simpl in H; simplify_eq.
  - destruct (formatter_loop n rest) eqn:E'; simpl in H; simplify_eq. eauto.
  - eapply markup_next_raises; eauto.
Qed.

(** The empty component yields no tuple at all. *)
Lemma formatter_parse_empty : formatter_parse "" = Ok [].
Proof. reflexivity. Qed.

Lemma scan_brace_free (s : string) :
  brace_free s = true -> scan_brace s = (s, None).
Proof.
  induction s as [|a s IH]; simpl; [reflexivity|].
  intros [Ha Hs]%andb_prop. apply negb_true_iff in Ha. rewrite Ha, (IH Hs).
  reflexivity.
Qed.

(** A non-empty text without braces is one literal tuple. *)
Lemma formatter_parse_literal (s : string) :
  s <> "" -> brace_free s = true ->
  formatter_parse s = Ok [(s, None, None, None)].
Proof.
  intros Hne Hbf. unfold formatter_parse.
  destruct s as [|a s]; [congruence|].
  cbn [formatter_loop]. unfold markup_next.
  rewrite (scan_brace_free _ Hbf). reflexivity.
Qed.

(** ** The template parser *)

Lemma make_segment_empty :
  make_segment "" = Raise (ValueError NotEnoughValuesToUnpack).
Proof. reflexivity. Qed.

Lemma make_segment_literal (s : string) :
  s <> "" -> brace_free s = true -> make_segment s = Ok (Lit s).
Proof.
  intros Hne Hbf. unfold make_segment.
  rewrite (formatter_parse_literal s Hne Hbf). simpl.
  rewrite bool_decide_eq_false_2 by done. reflexivity.
Qed.

(** Whatever a component makes the loop raise is a [ValueError] of a
    malformed template. *)
Lemma make_segment_raises (component : string) (e : Exn) :
  make_segment component = Raise e -> is_InvalidRouteTemplate e = true.
Proof.
  unfold make_segment, formatter_parse. intros H.
  destruct (formatter_loop _ _) as [ts|e'] eqn:E; simpl in H.
  - repeat case_match; simplify_eq; reflexivity.
  - simplify_eq. apply formatter_loop_raises in E as ->. reflexivity.
Qed.

Lemma make_loop_raises (components : list string) :
  forall segs dyn e,
    make_loop components segs dyn = Raise e -> is_InvalidRouteTemplate e = true.
Proof.
  induction components as [|c cs IH]; simpl; intros segs dyn e H; [discriminate|].
  destruct (make_segment c) as [seg|e'] eqn:E; simpl in H.
  - eauto.
  - simplify_eq. eapply make_segment_raises; eauto.
Qed.

(** An empty component anywhere stops the loop: on it, or on a malformed
    component before it. *)
Lemma make_loop_empty_component (components : list string) :
  forall segs dyn,
    In "" components ->
    exists e, make_loop components segs dyn = Raise e /\ is_InvalidRouteTemplate e = true.
Proof.
  induction components as [|c cs IH]; simpl; intros segs dyn Hin; [contradiction|].
  destruct (make_segment c) as [seg|e] eqn:E; simpl.
  - destruct Hin as [->|Hin]; [rewrite make_segment_empty in E; discriminate|].
    apply IH, Hin.
  - exists e. split; [reflexivity|]. eapply make_segment_raises; eauto.
Qed.

(** Components that are non-empty and free of braces are taken as they
    are. *)
Lemma make_loop_literals (components : list string) :
  forall segs dyn,
    Forall (fun c => c <> "" /\ brace_free c = true) components ->
    make_loop components segs dyn = Ok ((segs ++ (Lit <$> components))%list, dyn).
Proof.
  induction components as [|c cs IH]; simpl; intros segs dyn HF.
  - rewrite app_nil_r. reflexivity.
  - inversion HF as [|? ? [Hne Hbf] HF']; subst.
    rewrite (make_segment_literal c Hne Hbf). simpl.
    rewrite (IH _ _ HF'), <- app_assoc. reflexivity.
Qed.

(** [_DynamicRoute.__init__] reads the slot [segments] that
    [_Route.__init__] left unset: it always raises. *)
Lemma DynamicRoute___init___raises (segs : list Segment) (w : World) :
  DynamicRoute___init__ segs w
  = (Raise AttributeError, mkWorld (S (heap_next w)) (router w)).
Proof. reflexivity. Qed.

Lemma StaticRoute___init___eq (segs : list Segment) (w : World) :
  StaticRoute___init__ segs w
  = (Ok (mkRoute (heap_next w) StaticRoute segs None None None),
     mkWorld (S (heap_next w)) (router w)).
Proof. reflexivity. Qed.

(** What [make] can do: it never touches the router; a route it returns is
    a new [_StaticRoute] without [segments]; it raises either on a malformed
    template, before anything is allocated, or in the constructor of the
    dynamic route. *)
Lemma make_inv (path_str : string) (w : World) :
  match make path_str w with
  | (Ok r, w') =>
      r = mkRoute (heap_next w) StaticRoute (_hash r) None None None
      /\ w' = mkWorld (S (heap_next w)) (router w)
  | (Raise e, w') =>
      (is_InvalidRouteTemplate e = true /\ w' = w)
      \/ (e = AttributeError /\ w' = mkWorld (S (heap_next w)) (router w))
  end.
Proof.
  unfold make. unfold mbind, M_bind, bind, lift.
  destruct (make_loop _ [] false) as [[segs [|]]|e] eqn:E.
  - rewrite DynamicRoute___init___raises. right. done.
  - rewrite StaticRoute___init___eq. done.
  - left. split; [|reflexivity]. eapply make_loop_raises; eauto.
Qed.

Lemma make_router (path_str : string) (w : World) :
  router (snd (make path_str w)) = router w.
Proof.
  pose proof (make_inv path_str w) as H.
  destruct (make path_str w) as [[r|e] w']; simpl.
  - destruct H as [_ ->]. reflexivity.
  - destruct H as [[_ ->]|[_ ->]]; reflexivity.
Qed.

(** [parse] likewise returns a new [_StaticRoute] without [segments]. *)
Lemma parse_inv (path : string) (w : World) :
  match parse path w with
  | (Ok r, w') =>
      r = mkRoute (heap_next w) StaticRoute (_hash r) None None None
      /\ w' = mkWorld (S (heap_next w)) (router w)
  | (Raise e, w') => e = IndexError /\ path = "" /\ w' = w
  end.
Proof.
  unfold parse. destruct path as [|c rest]; [done|].
  destruct (Ascii.eqb c "/"); rewrite StaticRoute___init___eq; done.
Qed.

(** Two routes without [segments] are equal only when they are the same
    object, and so a dictionary finds only the very object it was given. *)
Lemma py_eq_unset (a b : Route) :
  segments a = None -> py_eq a b = py_is a b.
Proof.
  intros Ha. unfold py_eq, Route___eq__. rewrite Ha.
  destruct (segments b); reflexivity.
Qed.

Lemma key_match_unset (stored key : Route) :
  segments stored = None -> oid stored <> oid key -> key_match stored key = false.
Proof.
  intros Hs Hne. unfold key_match. rewrite (py_eq_unset _ _ Hs).
  unfold py_is. apply Nat.eqb_neq in Hne. rewrite Hne.
  apply andb_false_r.
Qed.

(** ** The tree walks *)

Lemma walk_matches (segs : list Segment) :
  forall node route, walk node segs = Ok route -> matches node segs route.
Proof.
  induction segs as [|seg rest IH]; simpl; intros node route H.
  - destruct (terminator node) eqn:E; simplify_eq. by constructor.
  - destruct (child_of node seg) as [child|] eqn:E.
    + destruct seg as [s|n]; simpl in E; [|discriminate].
      eapply matches_literal; eauto.
    + destruct (children node !! CAPTURE_SEGMENT) as [child|] eqn:E'; [|discriminate].
      eapply matches_capture; eauto.
Qed.

Lemma Node_eta (node : Node) :
  mkNode (children node) (terminator node) = node.
Proof. destruct node; reflexivity. Qed.

Lemma set_child_id (node child : Node) (key : Key) :
  children node !! key = Some child -> set_child node key child = node.
Proof.
  intros H. unfold set_child. rewrite (insert_id _ _ _ H). apply Node_eta.
Qed.

(** Below a [{}] that the loop has just linked, every node is new: the
    loop ends on a node without [TERMINATOR]. *)
Lemma extend_empty_final (keys : list Key) :
  forall root final,
    extend empty_node keys = (root, final) -> terminator final = None.
Proof.
  induction keys as [|key rest IH]; simpl; intros root final H.
  - by simplify_eq.
  - rewrite lookup_empty in H.
    destruct (extend empty_node rest) as [n f] eqn:E. simplify_eq. eauto.
Qed.

(** When the loop ends on a node that holds [TERMINATOR], all the nodes on
    its way were there already: the tree is as it was. *)
Lemma extend_terminator_unchanged (keys : list Key) :
  forall node root final,
    extend node keys = (root, final) ->
    is_Some (terminator final) ->
    root = node.
Proof.
  induction keys as [|key rest IH]; simpl; intros node root final H Hterm.
  - by simplify_eq.
  - destruct (children node !! key) as [child|] eqn:E.
    + destruct (extend child rest) as [n f] eqn:E'. simplify_eq.
      rewrite (IH _ _ _ E' Hterm). by apply set_child_id.
    + destruct (extend empty_node rest) as [n f] eqn:E'. simplify_eq.
      apply extend_empty_final in E'. rewrite E' in Hterm.
      by destruct Hterm.
Qed.

Lemma World_eta (w : World) :
  mkWorld (heap_next w)
    (mkRouter (_static_lookup (router w)) (_dynamic_lookup (router w))) = w.
Proof. destruct w as [n [s d]]; reflexivity. Qed.

(** ** Effects of the operations on the router *)

Lemma dispatch_dynamic_world (incoming_route : Route) (w : World) :
  snd (_dispatch_dynamic incoming_route w) = w.
Proof.
  unfold _dispatch_dynamic, get_segments. unfold_M.
  destruct (segments incoming_route); reflexivity.
Qed.

Lemma dispatch_world (incoming_route : Route) (w : World) :
  snd (dispatch incoming_route w) = w.
Proof.
  unfold dispatch. unfold mbind, M_bind, bind, get_static, lift.
  destruct (dict_contains _ _); [reflexivity|].
  pose proof (dispatch_dynamic_world incoming_route w) as H.
  destruct (_dispatch_dynamic incoming_route w) as [[r|e] w']; simpl in H; subst;
    [|reflexivity].
  unfold get_handler, ret, raise. destruct (handler r); reflexivity.
Qed.

(** [dispatch] depends on the router only. *)
Lemma dispatch_router (incoming_route : Route) (w1 w2 : World) :
  router w1 = router w2 ->
  fst (dispatch incoming_route w1) = fst (dispatch incoming_route w2).
Proof.
  destruct w1 as [n1 r1], w2 as [n2 r2]. simpl. intros ->.
  unfold dispatch, _dispatch_dynamic, get_segments, get_handler.
  unfold_M. simpl.
  destruct (dict_contains _ _); [reflexivity|].
  destruct (segments incoming_route); [|reflexivity].
  destruct (walk _ _) as [r|e]; [|reflexivity].
  destruct (handler r); reflexivity.
Qed.

(** A registration that raises after [make] leaves the world as it was. *)
Lemma register_route_raises (route : Route) (h : Handler) (ow : bool)
    (w w' : World) (e : Exn) :
  register_route route h ow w = (Raise e, w') -> w' = w.
Proof.
  unfold register_route.
  destruct (cls route).
  - unfold_M. destruct (_ && _); intros H; by simplify_eq.
  - unfold get_segments. simpl. unfold_M.
    destruct (segments route) as [segs|]; [|intros H; by simplify_eq].
    destruct (extend _ _) as [root final] eqn:E. simpl.
    destruct (bool_decide _ && negb ow) eqn:Hc; intros H; simplify_eq.
    apply andb_prop in Hc as [Hterm%bool_decide_eq_true _].
    rewrite (extend_terminator_unchanged _ _ _ _ E Hterm).
    apply World_eta.
Qed.

Lemma register_raises (route_str : string) (h : Handler) (ow : bool)
    (w w' : World) (e : Exn) :
  register route_str h ow w = (Raise e, w') -> router w' = router w.
Proof.
  unfold register. unfold mbind, M_bind, bind.
  pose proof (make_router route_str w) as Hm.
  destruct (make route_str w) as [[r|e'] w1]; simpl in Hm.
  - intros H%register_route_raises. congruence.
  - intros H. by simplify_eq.
Qed.

Lemma register_route_static_frame (route : Route) (h : Handler) (ow : bool)
    (w : World) :
  cls route = StaticRoute ->
  _dynamic_lookup (router (snd (register_route route h ow w)))
  = _dynamic_lookup (router w).
Proof.
  intros Hc. unfold register_route. rewrite Hc. unfold_M.
  destruct (_ && _); reflexivity.
Qed.

Lemma register_route_dynamic_frame (route : Route) (h : Handler) (ow : bool)
    (w : World) :
  cls route = DynamicRoute ->
  _static_lookup (router (snd (register_route route h ow w)))
  = _static_lookup (router w).
Proof.
  intros Hc. unfold register_route. rewrite Hc.
  unfold get_segments. simpl. unfold_M.
  destruct (segments route) as [segs|]; [|reflexivity].
  destruct (extend _ _) as [root final]. simpl.
  destruct (_ && _); reflexivity.
Qed.

(** ** The states a router can be in *)

Lemma dict_contains_fresh (d : RouteDict) (key : Route) :
  Forall (fun kv => oid (fst kv) < oid key /\ segments (fst kv) = None) d ->
  dict_contains d key = false.
Proof.
  induction 1 as [|kv d [Hlt Hseg] _ IH]; simpl; [reflexivity|].
  rewrite IH, key_match_unset by (done || lia). reflexivity.
Qed.

Lemma dict_set_fresh (d : RouteDict) (key : Route) (v : Handler) :
  Forall (fun kv => oid (fst kv) < oid key /\ segments (fst kv) = None) d ->
  dict_set d key v = (d ++ [(key, v)])%list.
Proof.
  induction 1 as [|kv d [Hlt Hseg] _ IH]; simpl; [reflexivity|].
  rewrite IH, key_match_unset by (done || lia). reflexivity.
Qed.

Lemma router_inv_alloc (w : World) :
  router_inv w -> router_inv (mkWorld (S (heap_next w)) (router w)).
Proof.
  intros [Hs Hd]. split; [|exact Hd]. simpl.
  eapply List.Forall_impl; [|exact Hs]. simpl. intros kv [? ?]. split; [lia|done].
Qed.

(** On such a router a registration that passes [make] goes through the
    static branch, finds no duplicate whatever [allow_overwrite] is, and
    adds one more entry. *)
Lemma register_inv (route_str : string) (h : Handler) (ow : bool) (w : World) :
  router_inv w ->
  match make route_str w with
  | (Ok r, _) =>
      register route_str h ow w
      = (Ok tt, mkWorld (S (heap_next w))
                  (mkRouter (_static_lookup (router w) ++ [(r, h)])%list
                            (_dynamic_lookup (router w))))
      /\ oid r = heap_next w /\ segments r = None
  | (Raise e, w') => register route_str h ow w = (Raise e, w')
  end.
Proof.
  intros [Hs Hd]. unfold register. unfold mbind, M_bind, bind.
  pose proof (make_inv route_str w) as Hm.
  destruct (make route_str w) as [[r|e] w1]; [|reflexivity].
  destruct Hm as [Hr ->].
  assert (Hfresh : Forall (fun kv => oid (fst kv) < oid r /\ segments (fst kv) = None)
                          (_static_lookup (router w)))
    by (rewrite Hr; exact Hs).
  assert (Hc : cls r = StaticRoute) by (rewrite Hr; reflexivity).
  split; [|rewrite Hr; done].
  unfold register_route. rewrite Hc. unfold_M. simpl.
  rewrite (dict_contains_fresh _ _ Hfresh), (dict_set_fresh _ _ _ Hfresh).
  reflexivity.
Qed.

Lemma step_inv (w w' : World) : step w w' -> router_inv w -> router_inv w'.
Proof.
  intros Hstep Hinv. destruct Hstep as [s h ow w|s w|p w|r w].
  - pose proof (register_inv s h ow w Hinv) as H.
    pose proof (make_inv s w) as Hm.
    destruct (make s w) as [[r|e] w1].
    + destruct H as (-> & Hoid & Hseg). simpl.
      destruct Hinv as [Hs Hd]. split; [|exact Hd]. simpl.
      apply Forall_app. split.
      * eapply List.Forall_impl; [|exact Hs]. simpl. intros kv [? ?]. split; [lia|done].
      * constructor; [|constructor]. simpl. split; [lia|done].
    + rewrite H. simpl.
      destruct Hm as [[_ ->]|[_ ->]]; [done|by apply router_inv_alloc].
  - pose proof (make_inv s w) as Hm.
    destruct (make s w) as [[r|e] w1]; simpl.
    + destruct Hm as [_ ->]. by apply router_inv_alloc.
    + destruct Hm as [[_ ->]|[_ ->]]; [done|by apply router_inv_alloc].
  - pose proof (parse_inv p w) as Hp.
    destruct (parse p w) as [[r|e] w1]; simpl.
    + destruct Hp as [_ ->]. by apply router_inv_alloc.
    + by destruct Hp as (_ & _ & ->).
  - by rewrite dispatch_world.
Qed.

Lemma reachable_inv (w : World) : reachable w -> router_inv w.
Proof.
  unfold reachable. intros H.
  apply (rtc_ind_r (R := step) (fun w => router_inv w) initial_world); [| |exact H].
  - split; [constructor|reflexivity].
  - intros w1 w2 _ Hstep IH. eauto using step_inv.
Qed.

(** No registration ever links a node into the dynamic lookup, nor puts a
    route under [TERMINATOR]. *)
Lemma reachable_dynamic_lookup_empty (w : World) :
  reachable w -> _dynamic_lookup (router w) = empty_node.
Proof. intros H. apply (reachable_inv w H). Qed.

(** No registration ever raises 'Route already found in router!'. *)
Lemma reachable_register_no_duplicate (route_str : string) (h : Handler)
    (ow : bool) (w : World) :
  reachable w ->
  fst (register route_str h ow w) <> Raise (ValueError RouteAlreadyFound).
Proof.
  intros Hr%reachable_inv.
  pose proof (register_inv route_str h ow w Hr) as H.
  pose proof (make_inv route_str w) as Hm.
  destruct (make route_str w) as [[r|e] w1].
  - destruct H as [-> _]. discriminate.
  - rewrite H. simpl. destruct Hm as [[He _]|[-> _]]; [|discriminate].
    intros ?. simplify_eq.
Qed.

(** Dispatching a parsed path never returns: the route is a new object
    without [segments], so the static lookup does not have it and the walk
    of the tree stops on reading [segments]. *)
Lemma reachable_dispatch_raises (path : string) (w w' : World) (r : Route) :
  reachable w ->
  parse path w = (Ok r, w') ->
  dispatch r w' = (Raise AttributeError, w').
Proof.
  intros [Hs Hd]%reachable_inv Hp.
  pose proof (parse_inv path w) as H. rewrite Hp in H. destruct H as [Hr ->].
  unfold dispatch. unfold mbind, M_bind, bind, get_static. simpl.
  rewrite dict_contains_fresh by (rewrite Hr; exact Hs).
  unfold _dispatch_dynamic, get_segments. rewrite Hr. reflexivity.
Qed.

(** ** The two splitting procedures *)

Lemma str_split_brace_free (s : string) :
  brace_free s = true ->
  Forall (fun c => brace_free c = true) (str_split "/" s).
Proof.
  induction s as [|a s IH]; simpl.
  - intros _. by repeat constructor.
  - intros [Ha Hs]%andb_prop. specialize (IH Hs).
    destruct (Ascii.eqb a "/").
    + by constructor.
    + destruct (str_split "/" s) as [|hd tl].
      * repeat constructor. simpl. by rewrite Ha.
      * inversion IH; subst. constructor; [|done]. simpl. by rewrite Ha.
Qed.

(** After the leading slash is set aside both procedures are left with the
    same components. *)
Lemma split_agree (c : ascii) (rest : string) :
  drop_leading_empty (str_split "/" (String c rest))
  = if Ascii.eqb c "/" then str_split "/" rest
    else str_split "/" (String c rest).
Proof.
  simpl. destruct (Ascii.eqb c "/"); [reflexivity|].
  destruct (str_split "/" rest); reflexivity.
Qed.

(** On a non-empty path without braces and without empty component, [make]
    and [parse] are the same computation. *)
Lemma make_eq_parse (path : string) (w : World) :
  path <> "" ->
  brace_free path = true ->
  Forall (fun c => c <> "") (drop_leading_empty (str_split "/" path)) ->
  make path w = parse path w
  /\ parse path w
     = (Ok (mkRoute (heap_next w) StaticRoute
              (Lit <$> drop_leading_empty (str_split "/" path)) None None None),
        mkWorld (S (heap_next w)) (router w)).
Proof.
  intros Hne Hbf Hcomp.
  assert (Hlit : Forall (fun c => c <> "" /\ brace_free c = true)
                        (drop_leading_empty (str_split "/" path))).
  { apply List.Forall_and; [exact Hcomp|].
    pose proof (str_split_brace_free path Hbf) as H.
    destruct (str_split "/" path) as [|[|a hd] tl]; simpl; [done| |done].
    by inversion H. }
  assert (Hparse : parse path w
     = (Ok (mkRoute (heap_next w) StaticRoute
              (Lit <$> drop_leading_empty (str_split "/" path)) None None None),
        mkWorld (S (heap_next w)) (router w))).
  { destruct path as [|c rest]; [done|].
    rewrite split_agree. unfold parse.
    destruct (Ascii.eqb c "/"); apply StaticRoute___init___eq. }
  split; [|exact Hparse]. rewrite Hparse.
  unfold make. unfold mbind, M_bind, bind, lift.
  rewrite (make_loop_literals _ [] false Hlit). reflexivity.
Qed.

(** And only on such paths do the two parsers both return a route. *)
Lemma parsers_agree_only_on_well_formed (path : string) :
  parsers_agree path ->
  path <> "" /\ Forall (fun c => c <> "") (drop_leading_empty (str_split "/" path)).
Proof.
  intros H. destruct (H initial_world) as (r1 & w1 & r2 & w2 & Hm & Hp & _).
  split.
  - intros ->. discriminate Hp.
  - apply List.Forall_forall. intros c Hin ->.
    destruct (make_loop_empty_component _ [] false Hin) as (e & He & _).
    unfold make in Hm. unfold mbind, M_bind, bind, lift in Hm.
    rewrite He in Hm. discriminate Hm.
Qed.

(** * The claims *)

(** C1 (fails on the code).  Registering a dynamic template is claimed to
    store the route under the terminator of the node its segments lead to,
    so that a matching path dispatches to its handler with the captures.
    On the code the template [/users/{id}] is refused by [make] (a component
    that is exactly one capture has an empty literal text); a template that
    passes the checks, [/users/x{id}], raises in the constructor of the
    dynamic route; neither leaves anything in the tree, and dispatching
    [/users/42] afterwards raises.  Even for a route object that has its
    segments, [register] links the nodes and stores no terminator, so the
    walk of [/users/42] ends in [MissingRoute]. *)
Theorem dynamic_registration_stores_nothing :
  register "/users/{id}" 1 false initial_world
  = (Raise (ValueError SingleCapturePerSegment), initial_world)
  /\ register "/users/x{id}" 1 false initial_world
     = (Raise AttributeError, mkWorld 1 new_router)
  /\ fst ((register "/users/{id}" 1 false;; r ← parse "/users/42"; dispatch r)
            initial_world)
     = Raise (ValueError SingleCapturePerSegment)
  /\ fst ((r ← parse "/users/42"; dispatch r) initial_world) = Raise AttributeError
  /\ fst (register_route route_users_id 1 false initial_world) = Ok tt
  /\ terminator
       (snd (extend (_dynamic_lookup
                       (router (snd (register_route route_users_id 1 false
                                       initial_world))))
               [KLit "users"; CAPTURE_SEGMENT]))
     = None
  /\ fst (dispatch incoming_users_42
            (snd (register_route route_users_id 1 false initial_world)))
     = Raise MissingRoute.
Proof. repeat split; vm_compute; reflexivity. Qed.

(** C2 (fails on the code).  A template whose components are each a literal
    or one well-formed capture is claimed to parse, to a [_StaticRoute] or to
    a [_DynamicRoute] with its capture map.  On the code a template of
    literals parses to a [_StaticRoute], but [/users/{id}] is refused with
    'can only have a single capture per path segment', and the one shape of
    capture that passes the checks ([x{id}]) stops in
    [_DynamicRoute.__init__] with [AttributeError]. *)
Theorem make_rejects_well_formed_capture :
  fst (make "/users/list" initial_world)
  = Ok (mkRoute 0 StaticRoute [Lit "users"; Lit "list"] None None None)
  /\ make_segment "{id}" = Raise (ValueError SingleCapturePerSegment)
  /\ make "/users/{id}" initial_world
     = (Raise (ValueError SingleCapturePerSegment), initial_world)
  /\ make_loop ["users"; "x{id}"] [] false = Ok ([Lit "users"; Cap "id"], true)
  /\ fst (make "/users/x{id}" initial_world) = Raise AttributeError.
Proof. repeat split; vm_compute; reflexivity. Qed.

(** C3 (fails on the code).  A second registration of the same template is
    claimed to fail with a duplicate error unless overwriting is allowed,
    and then to replace the handler.  On the code the second registration of
    [/a] without [allow_overwrite] succeeds and the static lookup ends up with
    two entries, one per route object; with [allow_overwrite] the first entry
    is not replaced either, and dispatching [/a] raises instead of returning
    the second handler. *)
Theorem duplicate_registration_not_detected :
  (register "/a" 1 false;; register "/a" 2 false) initial_world
  = (Ok tt,
     mkWorld 2
       (mkRouter
          [(mkRoute 0 StaticRoute [Lit "a"] None None None, 1);
           (mkRoute 1 StaticRoute [Lit "a"] None None None, 2)]
          empty_node))
  /\ _static_lookup
       (router (snd ((register "/a" 1 false;; register "/a" 2 true) initial_world)))
     = [(mkRoute 0 StaticRoute [Lit "a"] None None None, 1);
        (mkRoute 1 StaticRoute [Lit "a"] None None None, 2)]
  /\ fst ((register "/a" 1 false;; register "/a" 2 true;;
           r ← parse "/a"; dispatch r) initial_world)
     = Raise AttributeError.
Proof. repeat split; vm_compute; reflexivity. Qed.

(** C4 (fails on the code).  Dispatching the path of a registered static
    template is claimed to return its handler from the static table, before
    any dynamic pattern.  On the code the parsed path is a new route object
    that compares equal to no key of the table (without [segments],
    [__eq__] falls back to identity), so the table is missed and the walk of
    the tree raises [AttributeError]. *)
Theorem static_dispatch_misses_table :
  (register "/static/path" 1 false;; r ← parse "/static/path"; dispatch r)
    initial_world
  = (Raise AttributeError,
     mkWorld 2
       (mkRouter
          [(mkRoute 0 StaticRoute [Lit "static"; Lit "path"] None None None, 1)]
          empty_node))
  /\ py_eq (mkRoute 0 StaticRoute [Lit "static"; Lit "path"] None None None)
           (mkRoute 1 StaticRoute [Lit "static"; Lit "path"] None None None)
     = false.
Proof. repeat split; vm_compute; reflexivity. Qed.

(** C5 (fails on the code).  [make] is claimed to fail exactly on components
    with several placeholders, an annotation, an empty name or literal text
    next to a placeholder, accepting a component that is one [{name}] and
    refusing a literal prefix followed by a capture.  On the code the last
    test is the other way round: [{name}] is refused and [prefix{name}]
    passes the checks as the capture [name] (its prefix dropped); the other
    three refusals are as claimed. *)
Theorem make_segment_checks :
  make_segment "{name}" = Raise (ValueError SingleCapturePerSegment)
  /\ make_segment "prefix{name}" = Ok (Cap "name")
  /\ make_segment "{x}-{y}" = Raise (ValueError MultipleCaptures)
  /\ make_segment "{x}-suffix" = Raise (ValueError MultipleCaptures)
  /\ make_segment "{x:>3}" = Raise (ValueError NoSpecNorConversion)
  /\ make_segment "{x!r}" = Raise (ValueError NoSpecNorConversion)
  /\ make_segment "{}" = Raise (ValueError CaptureMustBeNamed)
  /\ make_segment "name" = Ok (Lit "name").
Proof. repeat split; vm_compute; reflexivity. Qed.

(** The loop of [_dispatch_dynamic] as it is written, on an incoming route
    whose [segments] are set: over the segments in order, the child under
    the literal key is taken whenever there is one (whatever stands under
    [CAPTURE_SEGMENT]), else the child under [CAPTURE_SEGMENT], and with
    neither the walk raises [MissingRoute] at once, and so does [dispatch];
    at the end of the segments the route under the terminator is returned,
    and [MissingRoute] raised if there is none.  The walk returns exactly
    the route that the greedy choice reaches and raises nothing but
    [MissingRoute].  A route that the walk returns is one that some choice
    of children reaches, but not conversely: in the tree of [/a/{x}/c] and
    [/a/b/d] the path [/a/b/c] is reached through the capture and the walk,
    having taken the literal [b], raises [MissingRoute]. *)
Theorem dispatch_walk_is_greedy :
  (forall incoming segs w,
     segments incoming = Some segs ->
     _dispatch_dynamic incoming w = (walk (_dynamic_lookup (router w)) segs, w))
  /\ (forall node s rest child,
        children node !! KLit s = Some child ->
        walk node (Lit s :: rest) = walk child rest)
  /\ (forall node s rest child,
        children node !! KLit s = None ->
        children node !! CAPTURE_SEGMENT = Some child ->
        walk node (Lit s :: rest) = walk child rest)
  /\ (forall node s rest,
        children node !! KLit s = None ->
        children node !! CAPTURE_SEGMENT = None ->
        walk node (Lit s :: rest) = Raise MissingRoute)
  /\ (forall incoming segs w,
        segments incoming = Some segs ->
        dict_contains (_static_lookup (router w)) incoming = false ->
        walk (_dynamic_lookup (router w)) segs = Raise MissingRoute ->
        dispatch incoming w = (Raise MissingRoute, w))
  /\ (forall node segs route, walk node segs = Ok route -> matches node segs route)
  /\ matches overlapping_tree [Lit "a"; Lit "b"; Lit "c"] route_a_x_c
  /\ walk overlapping_tree [Lit "a"; Lit "b"; Lit "c"] = Raise MissingRoute
  /\ (forall node route, terminator node = Some route -> walk node [] = Ok route)
  /\ (forall node, terminator node = None -> walk node [] = Raise MissingRoute)
  /\ (forall node segs route, walk node segs = Ok route <-> greedy node segs route)
  /\ (forall node segs e, walk node segs = Raise e -> e = MissingRoute)
  /\ walk overlapping_tree [Lit "a"; Lit "z"; Lit "c"] = Ok route_a_x_c
  /\ walk overlapping_tree [Lit "a"; Lit "b"; Lit "d"] = Ok route_a_b_d.
Proof.
  split_and!.
  - intros incoming segs w H. unfold _dispatch_dynamic, get_segments.
    rewrite H. reflexivity.
  - intros node s rest child H. simpl. by rewrite H.
  - intros node s rest child H1 H2. simpl. by rewrite H1, H2.
  - intros node s rest H1 H2. simpl. by rewrite H1, H2.
  - intros incoming segs w Hs Hc Hw.
    unfold dispatch, _dispatch_dynamic, get_segments. unfold_M.
    rewrite Hc, Hs. simpl. by rewrite Hw.
  - intros node segs route. apply walk_matches.
  - eapply matches_literal; [reflexivity|].
    eapply matches_capture; [reflexivity|].
    eapply matches_literal; [reflexivity|].
    by apply matches_end.
  - reflexivity.
  - intros node route H. simpl. by rewrite H.
  - intros node H. simpl. by rewrite H.
  - intros node segs route. split.
    + revert node. induction segs as [|seg rest IH]; simpl; intros node H.
      * destruct (terminator node) eqn:E; simplify_eq. by constructor.
      * destruct (child_of node seg) as [child|] eqn:E.
        -- eapply greedy_literal; eauto.
        -- destruct (children node !! CAPTURE_SEGMENT) as [child|] eqn:E';
             [|discriminate].
           eapply greedy_capture; eauto.
    + induction 1 as [node r H|node seg rest child r H _ IH
                      |node seg rest child r H1 H2 _ IH]; simpl.
      * by rewrite H.
      * by rewrite H.
      * by rewrite H1, H2.
  - intros node segs. revert node.
    induction segs as [|seg rest IH]; simpl; intros node e H.
    + destruct (terminator node); by simplify_eq.
    + destruct (child_of node seg) as [child|]; [by eauto|].
      destruct (children node !! CAPTURE_SEGMENT) as [child|]; [by eauto|].
      by simplify_eq.
  - reflexivity.
  - reflexivity.
Qed.

Lemma dispatch_walk_is_greedy_witness :
  walk overlapping_tree [Lit "a"; Lit "b"; Lit "c"]
  = walk (mkNode
            (<[ KLit "b" := mkNode {[ KLit "d" := mkNode ∅ (Some route_a_b_d) ]} None ]>
               {[ CAPTURE_SEGMENT :=
                    mkNode {[ KLit "c" := mkNode ∅ (Some route_a_x_c) ]} None ]})
            None)
         [Lit "b"; Lit "c"]
  /\ dispatch incoming_users_42 initial_world = (Raise MissingRoute, initial_world).
Proof.
  split.
  - apply (proj1 (proj2 dispatch_walk_is_greedy)). reflexivity.
  - apply (proj1 (proj2 (proj2 (proj2 (proj2 dispatch_walk_is_greedy))))
             incoming_users_42 [Lit "users"; Lit "42"] initial_world);
      reflexivity.
Defined.

(** C6 (fails on the code).  The walk of [dispatch] is claimed to go over
    the segments of the incoming path, literal child first, wildcard child
    next, and to fail with [MissingRoute] when there is neither.  On the
    code the walk is never reached with a path: the route that
    [_StaticRoute.parse] builds has no [segments], so [_dispatch_dynamic]
    raises [AttributeError] on its first line, on a new router and after
    the registrations of [/a/{x}/c] (refused) and [/a/b/d] (static) alike,
    where the claim has [MissingRoute].  The loop itself, given a route
    with its segments and the tree of the two patterns, does what the claim
    says. *)
Theorem dispatch_walk_not_reached :
  (r ← parse "/a/b/c"; dispatch r) initial_world
  = (Raise AttributeError, mkWorld 1 new_router)
  /\ fst ((r ← parse "/a/b/c"; _dispatch_dynamic r) initial_world)
     = Raise AttributeError
  /\ fst (register "/a/{x}/c" 1 false initial_world)
     = Raise (ValueError SingleCapturePerSegment)
  /\ fst ((register "/a/b/d" 2 false;; r ← parse "/a/b/c"; dispatch r) initial_world)
     = Raise AttributeError
  /\ _dynamic_lookup
       (router (snd ((register "/a/b/d" 2 false;; r ← parse "/a/b/c"; dispatch r)
                       initial_world)))
     = empty_node
  /\ walk overlapping_tree [Lit "a"; Lit "b"; Lit "c"] = Raise MissingRoute
  /\ walk overlapping_tree [Lit "a"; Lit "z"; Lit "c"] = Ok route_a_x_c.
Proof. repeat split; vm_compute; reflexivity. Qed.

(** C7.  [register] is atomic on failure: whenever it raises (for a
    malformed template, for a duplicate, or otherwise) the static lookup and
    the dynamic lookup are exactly as before the call, and [dispatch]
    answers as before; the part of [register] that follows [make] leaves
    the whole world as it was when it raises, also when it has walked the
    tree before finding the terminator of an earlier registration. *)
Theorem register_atomic_on_failure :
  (forall route_str h allow_overwrite w e w',
     register route_str h allow_overwrite w = (Raise e, w') ->
     router w' = router w
     /\ forall incoming, fst (dispatch incoming w') = fst (dispatch incoming w))
  /\ (forall route h allow_overwrite w e w',
        register_route route h allow_overwrite w = (Raise e, w') ->
        w' = w).
Proof.
  split.
  - intros s h ow w e w' H. apply register_raises in H.
    split; [exact H|]. intros incoming. by apply dispatch_router.
  - intros route h ow w e w'. apply register_route_raises.
Qed.

Lemma register_atomic_on_failure_witness :
  router (snd (register "{}" 1 false initial_world)) = router initial_world
  /\ snd (register_route route_users_name 2 false users_world) = users_world.
Proof.
  split.
  - apply (proj1 register_atomic_on_failure "{}" 1 false initial_world
             (ValueError CaptureMustBeNamed)).
    reflexivity.
  - apply (proj2 register_atomic_on_failure route_users_name 2 false users_world
             (ValueError RouteAlreadyFound)).
    reflexivity.
Defined.

(** C8 (as stated, fails).  The two parsers do not agree on every path
    without placeholder: [make] refuses the path [/] that [parse] takes as
    the single segment [''], and [parse] raises [IndexError] on the empty
    path, of which [make] makes the route without segments. *)
Lemma parsers_disagree :
  brace_free "/" = true /\ ~ parsers_agree "/"
  /\ brace_free "" = true /\ ~ parsers_agree "".
Proof.
  split_and!; try reflexivity.
  - intros H. destruct (H initial_world) as (r1 & w1 & r2 & w2 & Hm & _).
    vm_compute in Hm. discriminate.
  - intros H. destruct (H initial_world) as (r1 & w1 & r2 & w2 & _ & Hp & _).
    vm_compute in Hp. discriminate.
Qed.

(** C8 (amended).  On every non-empty path without braces whose components,
    the leading empty one set aside, are all non-empty, [make] and [parse]
    both return a [_StaticRoute] built from the same tuple of segments. *)
Theorem parsers_agree_on_well_formed (path : string) :
  path <> "" ->
  brace_free path = true ->
  Forall (fun c => c <> "") (drop_leading_empty (str_split "/" path)) ->
  parsers_agree path.
Proof.
  intros Hne Hbf Hcomp w.
  destruct (make_eq_parse path w Hne Hbf Hcomp) as [Hm Hp].
  rewrite Hp in Hm. eexists _, _, _, _. by split_and!.
Qed.

Lemma parsers_agree_on_well_formed_witness : parsers_agree "/foo/bar".
Proof.
  apply parsers_agree_on_well_formed.
  - discriminate.
  - reflexivity.
  - repeat constructor; discriminate.
Defined.

(** C9.  Registering a static route never modifies the dynamic lookup,
    registering a dynamic route never modifies the static lookup, and
    [dispatch] (with [_dispatch_dynamic]) modifies nothing at all. *)
Theorem operations_frame :
  (forall route h allow_overwrite w,
     cls route = StaticRoute ->
     _dynamic_lookup (router (snd (register_route route h allow_overwrite w)))
     = _dynamic_lookup (router w))
  /\ (forall route h allow_overwrite w,
        cls route = DynamicRoute ->
        _static_lookup (router (snd (register_route route h allow_overwrite w)))
        = _static_lookup (router w))
  /\ (forall route_str h allow_overwrite w r w1,
        make route_str w = (Ok r, w1) ->
        (cls r = StaticRoute ->
         _dynamic_lookup (router (snd (register route_str h allow_overwrite w)))
         = _dynamic_lookup (router w))
        /\ (cls r = DynamicRoute ->
            _static_lookup (router (snd (register route_str h allow_overwrite w)))
            = _static_lookup (router w)))
  /\ (forall incoming w, snd (dispatch incoming w) = w)
  /\ (forall incoming w, snd (_dispatch_dynamic incoming w) = w).
Proof.
  split_and!.
  - intros. by apply register_route_static_frame.
  - intros. by apply register_route_dynamic_frame.
  - intros s h ow w r w1 Hm.
    pose proof (make_router s w) as Hr. rewrite Hm in Hr. simpl in Hr.
    unfold register. unfold mbind, M_bind, bind. rewrite Hm.
    split; intros Hc.
    + rewrite register_route_static_frame by done. by rewrite Hr.
    + rewrite register_route_dynamic_frame by done. by rewrite Hr.
  - apply dispatch_world.
  - apply dispatch_dynamic_world.
Qed.

Lemma operations_frame_witness :
  _dynamic_lookup (router (snd (register "/a" 1 false initial_world)))
  = _dynamic_lookup (router initial_world)
  /\ _static_lookup (router (snd (register_route route_users_id 1 false initial_world)))
     = _static_lookup (router initial_world).
Proof.
  split.
  - refine (proj1 (proj1 (proj2 (proj2 operations_frame)) "/a" 1 false initial_world
                     (mkRoute 0 StaticRoute [Lit "a"] None None None)
                     (mkWorld 1 new_router) _) _); reflexivity.
  - apply (proj1 (proj2 operations_frame)). reflexivity.
Defined.

(** C10.  A template that, its leading empty component set aside, still has
    an empty component (the root [/], a trailing slash, a double slash)
    cannot be registered: the formatter yields no tuple for the empty
    component, unpacking the single tuple raises, and [register] fails with
    the [ValueError] of a malformed template (that one, or the one of a
    malformed component before it), leaving the world as it was. *)
Theorem register_empty_component (route_str : string) (h : Handler)
    (allow_overwrite : bool) (w : World) :
  In "" (drop_leading_empty (str_split "/" route_str)) ->
  formatter_parse "" = Ok []
  /\ make_segment "" = Raise (ValueError NotEnoughValuesToUnpack)
  /\ exists e,
       register route_str h allow_overwrite w = (Raise e, w)
       /\ is_InvalidRouteTemplate e = true.
Proof.
  intros Hin. split_and!; [reflexivity..|].
  destruct (make_loop_empty_component _ [] false Hin) as (e & He & Hinv).
  exists e. split; [|exact Hinv].
  unfold register, make. unfold mbind, M_bind, bind, lift.
  rewrite He. reflexivity.
Qed.

Lemma register_empty_component_witness :
  (exists e, register "/" 1 false initial_world = (Raise e, initial_world)
             /\ is_InvalidRouteTemplate e = true)
  /\ (exists e, register "/a/" 1 false initial_world = (Raise e, initial_world)
                /\ is_InvalidRouteTemplate e = true)
  /\ (exists e, register "/a//b" 1 true initial_world = (Raise e, initial_world)
                /\ is_InvalidRouteTemplate e = true).
Proof.
  split_and!.
  - apply (register_empty_component "/" 1 false initial_world). simpl. tauto.
  - apply (register_empty_component "/a/" 1 false initial_world). simpl. tauto.
  - apply (register_empty_component "/a//b" 1 true initial_world). simpl. tauto.
Defined.

(** * Further properties of the code *)

(** ** What [make] returns and raises *)

Lemma make_segment_inv (component : string) (seg : Segment) :
  make_segment component = Ok seg ->
  exists literal_text field_name fmt_spec conversion,
    formatter_parse component = Ok [(literal_text, field_name, fmt_spec, conversion)]
    /\ opt_truthy fmt_spec = false /\ opt_truthy conversion = false
    /\ field_name <> Some "" /\ literal_text <> ""
    /\ seg = match field_name with
             | None => Lit literal_text
             | Some name => Cap name
             end.
Proof.
  unfold make_segment. intros H.
  destruct (formatter_parse component) as [ts|e]; simpl in H; [|discriminate].
  destruct (Nat.ltb 1 (List.length ts)) eqn:Hlen; [discriminate|].
  destruct ts as [|[[[lit fname] spec] conv] ts]; [discriminate|].
  destruct ts as [|t ts]; [|simpl in Hlen; discriminate].
  destruct (opt_truthy spec || opt_truthy conv) eqn:Ht; [discriminate|].
  apply orb_false_elim in Ht as [Hs Hc].
  case_bool_decide as Hf; [discriminate|].
  case_bool_decide as Hl; [discriminate|].
  exists lit, fname, spec, conv.
  split_and!; try done. destruct fname; by simplify_eq.
Qed.

(** No segment that [make] builds is empty: neither a literal nor the name
    of a capture. *)
Lemma make_segment_nonempty (component : string) (seg : Segment) :
  make_segment component = Ok seg ->
  match seg with
  | Lit s => s <> ""
  | Cap name => name <> ""
  end.
Proof.
  intros (lit & fname & spec & conv & _ & _ & _ & Hf & Hl & ->)%make_segment_inv.
  destruct fname as [name|]; [|done]. congruence.
Qed.

(** The loop of [make] turns the components into segments one by one, and
    [is_dynamic] tells whether one of them is a capture. *)
Lemma make_loop_inv (components : list string) :
  forall segs dyn segs' dyn',
    make_loop components segs dyn = Ok (segs', dyn') ->
    exists new,
      segs' = (segs ++ new)%list
      /\ Forall2 (fun c seg => make_segment c = Ok seg) components new
      /\ dyn' = existsb is_capture new || dyn.
Proof.
  induction components as [|c cs IH]; simpl; intros segs dyn segs' dyn' H.
  - simplify_eq. exists []. rewrite app_nil_r. by split_and!.
  - destruct (make_segment c) as [seg|e] eqn:E; simpl in H; [|discriminate].
    apply IH in H as (new & -> & HF & ->).
    exists (seg :: new). split_and!.
    + by rewrite <- app_assoc.
    + by constructor.
    + simpl. by destruct (is_capture seg), (existsb is_capture new), dyn.
Qed.

Lemma existsb_is_capture_false (segs : list Segment) :
  existsb is_capture segs = false ->
  Forall (fun seg => exists s, seg = Lit s) segs.
Proof.
  induction segs as [|[s|n] segs IH]; simpl; intros H.
  - constructor.
  - constructor; eauto.
  - discriminate.
Qed.

(** X1.  Every route that [make] returns is a new [_StaticRoute]: its
    [segments], [capture_map] and [handler] slots are unset, its hash is
    taken over one non-empty literal per component of the template, and the
    router is untouched.  [make] never returns a [_DynamicRoute]. *)
Theorem make_returns_static (path_str : string) (w w' : World) (r : Route) :
  make path_str w = (Ok r, w') ->
  cls r = StaticRoute
  /\ segments r = None /\ capture_map r = None /\ handler r = None
  /\ oid r = heap_next w /\ heap_next w' = S (heap_next w)
  /\ router w' = router w
  /\ List.length (_hash r) = List.length (drop_leading_empty (str_split "/" path_str))
  /\ Forall (fun seg => exists s, seg = Lit s /\ s <> "") (_hash r).
Proof.
  intros H.
  pose proof (make_inv path_str w) as Hinv. rewrite H in Hinv.
  destruct Hinv as [Hr ->].
  split_and!; try (rewrite Hr; reflexivity); try reflexivity.
  - unfold make in H. unfold mbind, M_bind, bind, lift in H.
    destruct (make_loop _ [] false) as [[segs [|]]|e] eqn:E; try discriminate.
    rewrite StaticRoute___init___eq in H. simplify_eq. simpl.
    apply make_loop_inv in E as (new & -> & HF & _). simpl.
    symmetry. eapply Forall2_length; eauto.
  - unfold make in H. unfold mbind, M_bind, bind, lift in H.
    destruct (make_loop _ [] false) as [[segs [|]]|e] eqn:E; try discriminate.
    rewrite StaticRoute___init___eq in H. simplify_eq. simpl.
    apply make_loop_inv in E as (new & -> & HF & Hd). simpl.
    rewrite orb_false_r in Hd. symmetry in Hd.
    apply existsb_is_capture_false in Hd.
    clear -HF Hd. induction HF as [|c seg cs new Hc _ IH]; [constructor|].
    inversion Hd as [|? ? [s ->] Hd']; subst.
    constructor; [|by apply IH].
    exists s. split; [done|]. by apply make_segment_nonempty in Hc.
Qed.

Lemma make_returns_static_witness :
  cls (mkRoute 0 StaticRoute [Lit "users"; Lit "list"] None None None) = StaticRoute
  /\ List.length [Lit "users"; Lit "list"] = 2.
Proof.
  pose proof (make_returns_static "/users/list" initial_world (mkWorld 1 new_router)
                (mkRoute 0 StaticRoute [Lit "users"; Lit "list"] None None None)
                eq_refl) as H.
  split; [apply H|]. apply (proj1 (proj2 (proj2 (proj2 (proj2 (proj2 (proj2 (proj2 H))))))) ).
Defined.

(** X2.  A template with a capture never parses: as soon as one component is
    taken as a capture, [make] raises, either the [ValueError] of a
    malformed component (nothing allocated, the world as it was) or the
    [AttributeError] of [_DynamicRoute.__init__] (one object allocated, the
    router as it was). *)
Theorem make_capture_raises (path_str component name : string) (w : World) :
  In component (drop_leading_empty (str_split "/" path_str)) ->
  make_segment component = Ok (Cap name) ->
  exists e w',
    make path_str w = (Raise e, w')
    /\ ((is_InvalidRouteTemplate e = true /\ w' = w)
        \/ (e = AttributeError /\ w' = mkWorld (S (heap_next w)) (router w))).
Proof.
  intros Hin Hcap.
  pose proof (make_inv path_str w) as Hinv.
  destruct (make path_str w) as [[r|e] w'] eqn:Hm; [|by eauto].
  exfalso.
  unfold make in Hm. unfold mbind, M_bind, bind, lift in Hm.
  destruct (make_loop _ [] false) as [[segs [|]]|e] eqn:E; try discriminate.
  apply make_loop_inv in E as (new & _ & HF & Hd).
  rewrite orb_false_r in Hd. symmetry in Hd.
  apply existsb_is_capture_false in Hd.
  clear -HF Hd Hin Hcap. induction HF as [|c seg cs new Hc _ IH]; [done|].
  inversion Hd as [|? ? [s ->] Hd']; subst.
  destruct Hin as [->|Hin]; [congruence|by apply IH].
Qed.

Lemma make_capture_raises_witness :
  exists e w',
    make "/users/x{id}" initial_world = (Raise e, w')
    /\ ((is_InvalidRouteTemplate e = true /\ w' = initial_world)
        \/ (e = AttributeError /\ w' = mkWorld 1 (router initial_world))).
Proof.
  apply (make_capture_raises "/users/x{id}" "x{id}" "id" initial_world).
  - simpl. tauto.
  - reflexivity.
Defined.

(** ** The shape of a component that is taken as a capture *)

Lemma scan_brace_app (s lit rest : string) (b : ascii) :
  scan_brace s = (lit, Some (b, rest)) ->
  s = lit ++ String b rest /\ brace_free lit = true /\ is_brace b = true.
Proof.
  revert lit. induction s as [|a s IH]; simpl; intros lit H; [discriminate|].
  destruct (is_brace a) eqn:Ha.
  - by simplify_eq.
  - destruct (scan_brace s) as [lit' [[b' rest']|]]; [|discriminate].
    simplify_eq. destruct (IH _ eq_refl) as (-> & Hbf & Hb).
    simpl. rewrite Ha. by split_and!.
Qed.

Lemma scan_field_name_app (s : string) :
  forall inb name t rest,
    scan_field_name inb s = Ok (name, (t, rest)) ->
    s = name ++ String t rest.
Proof.
  induction s as [|a s IH]; simpl; intros inb name t rest H; [discriminate|].
  repeat case_match; simplify_eq; try reflexivity;
    apply consl_Ok in H as (name' & H & ->); apply IH in H; by subst.
Qed.

Lemma parse_field_name (s name spec rest : string) (conv : option string) :
  parse_field s = Ok (name, spec, conv, rest) ->
  exists t tail, scan_field_name false s = Ok (name, (t, tail)).
Proof.
  unfold parse_field. intros H.
  destruct (scan_field_name false s) as [[n [t tail]]|e]; simpl in H; [|discriminate].
  exists t, tail.
  repeat case_match; simplify_eq; try reflexivity;
    destruct (scan_format_spec 1 _) as [[sp r3]|]; simpl in H; by simplify_eq.
Qed.

(** X3.  A component is taken as a capture only when non-empty literal text
    precedes the opening brace: it has the form [lit{name...] with [lit] and
    [name] non-empty, and the capture keeps [name] only.  A component that
    begins with its placeholder, such as [{name}], is never a capture. *)
Theorem capture_needs_literal_prefix (component name : string) :
  make_segment component = Ok (Cap name) ->
  name <> ""
  /\ exists lit tail,
       lit <> "" /\ brace_free lit = true
       /\ component = lit ++ "{" ++ name ++ tail.
Proof.
  intros Hseg. pose proof (make_segment_nonempty _ _ Hseg) as Hname.
  split; [exact Hname|].
  apply make_segment_inv in Hseg
    as (lit & fname & spec & conv & Hp & _ & _ & _ & Hlit & Heq).
  destruct fname as [n|]; [|discriminate]. injection Heq as <-.
  unfold formatter_parse in Hp. cbn [formatter_loop] in Hp.
  destruct (markup_next component) as [[[t rest]|]|e] eqn:Hm; simpl in Hp;
    [|discriminate..].
  destruct (formatter_loop _ rest) as [ts|]; simpl in Hp; [|discriminate].
  injection Hp as -> ->.
  unfold markup_next in Hm.
  destruct component as [|a component]; [discriminate|].
  destruct (scan_brace (String a component)) as [lit' [[b r]|]] eqn:Hs;
    [|by simplify_eq].
  apply scan_brace_app in Hs as (Hc & Hbf & Hb).
  destruct r as [|c' r']; [discriminate|].
  destruct (Ascii.eqb b c') eqn:Hbc; [by simplify_eq|].
  destruct (Ascii.eqb b "}") eqn:Hb'; [discriminate|].
  destruct (parse_field _) as [[[[n' sp] cv] r2]|] eqn:Hf; simpl in Hm; [|discriminate].
  simplify_eq.
  apply parse_field_name in Hf as (t & tail & Hf).
  apply scan_field_name_app in Hf.
  assert (b = "{"%char) as ->.
  { unfold is_brace in Hb. rewrite Hb', orb_false_r in Hb. by apply Ascii.eqb_eq. }
  exists lit, (String t tail). split_and!; [done..|].
  rewrite Hc, Hf. reflexivity.
Qed.

Lemma capture_needs_literal_prefix_witness :
  "id" <> ""
  /\ exists lit tail,
       lit <> "" /\ brace_free lit = true /\ "x{id}" = lit ++ "{" ++ "id" ++ tail.
Proof. apply (capture_needs_literal_prefix "x{id}" "id"). reflexivity. Defined.

(** ** The leading slash *)

Lemma drop_leading_nonslash (c : ascii) (rest : string) :
  Ascii.eqb c "/" = false ->
  drop_leading_empty (str_split "/" (String c rest)) = str_split "/" (String c rest).
Proof.
  intros Hc. simpl. rewrite Hc. destruct (str_split "/" rest); reflexivity.
Qed.

(** X4.  One leading slash is insignificant on a non-empty path: for a
    path that has a first character other than a slash, [make], [parse]
    and [register] do on ['/' + path] exactly what they do on [path].  The
    empty path is the exception: [make] refuses ['/'] and returns the route
    without segments for [''], [parse] returns the route of the one
    segment [''] for ['/'] and raises [IndexError] on ['']. *)
Theorem leading_slash_insignificant (c : ascii) (rest : string) (h : Handler)
    (allow_overwrite : bool) (w : World) :
  Ascii.eqb c "/" = false ->
  (make (String "/" (String c rest)) w = make (String c rest) w
   /\ parse (String "/" (String c rest)) w = parse (String c rest) w
   /\ register (String "/" (String c rest)) h allow_overwrite w
      = register (String c rest) h allow_overwrite w)
  /\ make "/" w = (Raise (ValueError NotEnoughValuesToUnpack), w)
  /\ make "" w
     = (Ok (mkRoute (heap_next w) StaticRoute [] None None None),
        mkWorld (S (heap_next w)) (router w))
  /\ parse "/" w
     = (Ok (mkRoute (heap_next w) StaticRoute [Lit ""] None None None),
        mkWorld (S (heap_next w)) (router w))
  /\ parse "" w = (Raise IndexError, w).
Proof.
  intros Hc.
  assert (Hm : make (String "/" (String c rest)) w = make (String c rest) w).
  { unfold make. rewrite (drop_leading_nonslash c rest Hc). reflexivity. }
  split_and!; try reflexivity.
  - exact Hm.
  - unfold parse. rewrite Hc. reflexivity.
  - unfold register. unfold mbind, M_bind, bind. by rewrite Hm.
Qed.

Lemma leading_slash_insignificant_witness :
  make "/users/list" initial_world = make "users/list" initial_world
  /\ parse "/users/42" initial_world = parse "users/42" initial_world.
Proof.
  split.
  - apply (leading_slash_insignificant "u" "sers/list" 0 false initial_world).
    reflexivity.
  - apply (leading_slash_insignificant "u" "sers/42" 0 false initial_world).
    reflexivity.
Defined.

(** ** Every state of a router *)

Lemma register_route_heap (route : Route) (h : Handler) (ow : bool) (w : World) :
  heap_next (snd (register_route route h ow w)) = heap_next w.
Proof.
  unfold register_route. destruct (cls route).
  - unfold_M. destruct (_ && _); reflexivity.
  - unfold get_segments. simpl. unfold_M.
    destruct (segments route) as [segs|]; [|reflexivity].
    destruct (extend _ _) as [root final]. simpl.
    destruct (_ && _); reflexivity.
Qed.

Lemma make_heap (path_str : string) (w : World) :
  heap_next w <= heap_next (snd (make path_str w)).
Proof.
  pose proof (make_inv path_str w) as H.
  destruct (make path_str w) as [[r|e] w']; simpl.
  - destruct H as [_ ->]. simpl. lia.
  - destruct H as [[_ ->]|[_ ->]]; simpl; lia.
Qed.

Lemma step_heap (w w' : World) : step w w' -> heap_next w <= heap_next w'.
Proof.
  intros [s h ow w0|s w0|p w0|r w0].
  - unfold register. unfold mbind, M_bind, bind.
    pose proof (make_heap s w0) as Hm.
    destruct (make s w0) as [[r|e] w1]; simpl in *; [|done].
    by rewrite register_route_heap.
  - apply make_heap.
  - pose proof (parse_inv p w0) as Hp.
    destruct (parse p w0) as [[r|e] w1]; simpl.
    + destruct Hp as [_ ->]. simpl. lia.
    + destruct Hp as (_ & _ & ->). lia.
  - by rewrite dispatch_world.
Qed.

Lemma steps_heap (w w' : World) : rtc step w w' -> heap_next w <= heap_next w'.
Proof.
  induction 1 as [|w1 w2 w3 Hs _ IH]; [lia|].
  apply step_heap in Hs. lia.
Qed.

Lemma built_inv (w w' : World) (r : Route) :
  built w r w' ->
  r = mkRoute (heap_next w) StaticRoute (_hash r) None None None
  /\ w' = mkWorld (S (heap_next w)) (router w).
Proof.
  intros [[path H]|[path H]].
  - pose proof (parse_inv path w) as Hp. by rewrite H in Hp.
  - pose proof (make_inv path w) as Hm. by rewrite H in Hm.
Qed.

Lemma built_step (w w' : World) (r : Route) : built w r w' -> step w w'.
Proof.
  intros [[path H]|[path H]].
  - replace w' with (snd (parse path w)) by (by rewrite H). constructor.
  - replace w' with (snd (make path w)) by (by rewrite H). constructor.
Qed.

Lemma steps_inv (w w' : World) : rtc step w w' -> router_inv w -> router_inv w'.
Proof. induction 1; eauto using step_inv. Qed.

Lemma foreign_keys_step (r : Route) (w w' : World) :
  step w w' -> foreign_keys r w -> foreign_keys r w'.
Proof.
  intros Hstep (Hinv & Hlt & Hkeys).
  split; [by eapply step_inv|].
  split; [apply step_heap in Hstep; lia|].
  destruct Hstep as [s h ow w|s w|p w|r0 w].
  - pose proof (register_inv s h ow w Hinv) as H.
    pose proof (make_router s w) as Hm.
    destruct (make s w) as [[r1|e] w1]; simpl in Hm.
    + destruct H as (-> & Hoid & _). simpl.
      apply Forall_app. split; [exact Hkeys|].
      constructor; [|constructor]. simpl. lia.
    + rewrite H. simpl. by rewrite Hm.
  - by rewrite make_router.
  - pose proof (parse_inv p w) as Hp.
    destruct (parse p w) as [[r1|e] w1]; simpl.
    + by destruct Hp as [_ ->].
    + by destruct Hp as (_ & _ & ->).
  - by rewrite dispatch_world.
Qed.

Lemma foreign_keys_steps (r : Route) (w w' : World) :
  rtc step w w' -> foreign_keys r w -> foreign_keys r w'.
Proof. induction 1; eauto using foreign_keys_step. Qed.

Lemma foreign_keys_built (w w1 : World) (r : Route) :
  router_inv w -> built w r w1 -> foreign_keys r w1.
Proof.
  intros Hinv Hb. pose proof (built_inv _ _ _ Hb) as [Hr ->].
  split; [by apply router_inv_alloc|].
  assert (Hoid : oid r = heap_next w) by (rewrite Hr; reflexivity).
  split; [simpl; lia|]. simpl.
  destruct Hinv as [Hs _].
  eapply List.Forall_impl; [|exact Hs]. simpl. intros kv [? _]. lia.
Qed.

Lemma dict_contains_foreign (d : RouteDict) (key : Route) :
  Forall (fun kv => oid (fst kv) <> oid key) d ->
  Forall (fun kv => segments (fst kv) = None) d ->
  dict_contains d key = false.
Proof.
  induction 1 as [|kv d Hne _ IH]; simpl; [reflexivity|].
  intros Hs. inversion Hs; subst.
  rewrite IH, key_match_unset by done. reflexivity.
Qed.

Lemma foreign_keys_contains (r r' : Route) (w : World) :
  foreign_keys r w -> oid r' = oid r ->
  dict_contains (_static_lookup (router w)) r' = false.
Proof.
  intros ([Hs _] & _ & Hkeys) Hoid. apply dict_contains_foreign.
  - rewrite Hoid. exact Hkeys.
  - eapply List.Forall_impl; [|exact Hs]. simpl. by intros kv [_ ?].
Qed.

Lemma walk_empty (segs : list Segment) : walk empty_node segs = Raise MissingRoute.
Proof.
  destruct segs as [|[s|n] rest]; simpl; [reflexivity| |];
    by rewrite ?lookup_empty.
Qed.

Lemma reachable_example : reachable (snd (register "/a" 1 false initial_world)).
Proof. apply rtc_once. constructor. Defined.

(** X5.  In every state a router can reach the dynamic lookup is still the
    empty dictionary of [Router.__init__]: no registration links a node or
    stores a terminator, and the walk of [_dispatch_dynamic] finds nothing
    whatever the segments. *)
Theorem reachable_tree_stays_empty (w : World) :
  reachable w ->
  _dynamic_lookup (router w) = empty_node
  /\ forall segs, walk (_dynamic_lookup (router w)) segs = Raise MissingRoute.
Proof.
  intros [_ Hd]%reachable_inv. split; [exact Hd|].
  intros segs. rewrite Hd. apply walk_empty.
Qed.

Lemma reachable_tree_stays_empty_witness :
  _dynamic_lookup (router (snd (register "/a" 1 false initial_world))) = empty_node.
Proof. apply (reachable_tree_stays_empty _ reachable_example). Defined.

(** X6.  In every state a router can reach, [register] succeeds exactly
    when [make] returns a route, whatever [allow_overwrite] and whatever was
    registered before: it then appends one entry, keyed by the new route, to
    the static lookup and leaves the dynamic lookup alone; when [make]
    raises, [register] raises the same exception. *)
Theorem reachable_register (route_str : string) (h : Handler)
    (allow_overwrite : bool) (w : World) :
  reachable w ->
  (forall r w1,
     make route_str w = (Ok r, w1) ->
     register route_str h allow_overwrite w
     = (Ok tt, mkWorld (heap_next w1)
                 (mkRouter (_static_lookup (router w) ++ [(r, h)])%list
                           (_dynamic_lookup (router w)))))
  /\ (forall e w1,
        make route_str w = (Raise e, w1) ->
        register route_str h allow_overwrite w = (Raise e, w1)).
Proof.
  intros Hr%reachable_inv.
  pose proof (register_inv route_str h allow_overwrite w Hr) as H.
  pose proof (make_inv route_str w) as Hm.
  split.
  - intros r w1 E. rewrite E in H, Hm. destruct H as [-> _].
    by destruct Hm as [_ ->].
  - intros e w1 E. by rewrite E in H.
Qed.

Lemma reachable_register_witness :
  register "/a" 2 false (snd (register "/a" 1 false initial_world))
  = (Ok tt,
     mkWorld 2
       (mkRouter
          [(mkRoute 0 StaticRoute [Lit "a"] None None None, 1);
           (mkRoute 1 StaticRoute [Lit "a"] None None None, 2)]
          empty_node)).
Proof.
  apply (proj1 (reachable_register "/a" 2 false _ reachable_example)
           (mkRoute 1 StaticRoute [Lit "a"] None None None)
           (mkWorld 2
              (mkRouter [(mkRoute 0 StaticRoute [Lit "a"] None None None, 1)]
                        empty_node))).
  reflexivity.
Defined.

(** X7.  A route that a client got from [parse] or [make] is never
    dispatched: in the state it was built in and in every later state,
    [dispatch] misses the static lookup and raises [AttributeError] on
    reading the unset [segments], leaving the router as it is. *)
Theorem built_route_never_dispatches (w w1 w2 : World) (r : Route) :
  reachable w ->
  built w r w1 ->
  rtc step w1 w2 ->
  dispatch r w2 = (Raise AttributeError, w2).
Proof.
  intros Hr%reachable_inv Hb Hsteps.
  pose proof (foreign_keys_steps r _ _ Hsteps (foreign_keys_built _ _ _ Hr Hb)) as Hf.
  pose proof (built_inv _ _ _ Hb) as [Heq _].
  unfold dispatch. unfold mbind, M_bind, bind, get_static. simpl.
  rewrite (foreign_keys_contains r r w2 Hf eq_refl).
  unfold _dispatch_dynamic, get_segments. rewrite Heq. reflexivity.
Qed.

Lemma built_route_never_dispatches_witness :
  dispatch (mkRoute 1 StaticRoute [Lit "a"] None None None)
    (mkWorld 2 (mkRouter [(mkRoute 0 StaticRoute [Lit "a"] None None None, 1)] empty_node))
  = (Raise AttributeError,
     mkWorld 2 (mkRouter [(mkRoute 0 StaticRoute [Lit "a"] None None None, 1)] empty_node)).
Proof.
  apply (built_route_never_dispatches
           (snd (register "/a" 1 false initial_world))
           (mkWorld 2 (mkRouter [(mkRoute 0 StaticRoute [Lit "a"] None None None, 1)] empty_node))
           (mkWorld 2 (mkRouter [(mkRoute 0 StaticRoute [Lit "a"] None None None, 1)] empty_node))
           (mkRoute 1 StaticRoute [Lit "a"] None None None) reachable_example).
  - left. exists "/a". reflexivity.
  - apply rtc_refl.
Defined.

(** X8.  Two routes built by separate calls of [parse] or [make] never
    compare equal, in either direction, even when built from the same text;
    and a dictionary that holds the one as a key does not find the other. *)
Theorem built_routes_never_equal (w w1 w2 w3 : World) (r1 r2 : Route) :
  built w r1 w1 ->
  rtc step w1 w2 ->
  built w2 r2 w3 ->
  py_eq r1 r2 = false /\ py_eq r2 r1 = false /\ key_match r1 r2 = false.
Proof.
  intros Hb1 Hsteps Hb2.
  pose proof (built_inv _ _ _ Hb1) as [H1 ->].
  pose proof (built_inv _ _ _ Hb2) as [H2 _].
  apply steps_heap in Hsteps. simpl in Hsteps.
  assert (Hne : oid r1 <> oid r2) by (rewrite H1, H2; simpl; lia).
  assert (Hs1 : segments r1 = None) by (rewrite H1; reflexivity).
  assert (Hs2 : segments r2 = None) by (rewrite H2; reflexivity).
  rewrite !py_eq_unset by done. unfold py_is.
  split_and!.
  - by apply Nat.eqb_neq.
  - by apply Nat.eqb_neq.
  - by apply key_match_unset.
Qed.

Lemma built_routes_never_equal_witness :
  py_eq (mkRoute 0 StaticRoute [Lit "a"] None None None)
        (mkRoute 1 StaticRoute [Lit "a"] None None None) = false.
Proof.
  refine (proj1 (built_routes_never_equal initial_world (mkWorld 1 new_router)
                   (mkWorld 1 new_router) (mkWorld 2 new_router)
                   (mkRoute 0 StaticRoute [Lit "a"] None None None)
                   (mkRoute 1 StaticRoute [Lit "a"] None None None) _ _ _)).
  - left. exists "/a". reflexivity.
  - apply rtc_refl.
  - right. exists "a". reflexivity.
Defined.

(** X9.  Assigning the missing [segments] to an incoming route does not
    help: in every state a router can reach, dispatching a parsed route
    with any segments put in place raises [MissingRoute], so no sequence of
    registrations makes [dispatch] return a handler for it. *)
Theorem dispatch_with_segments_misses (w w1 w2 : World) (r : Route)
    (segs : list Segment) :
  reachable w ->
  built w r w1 ->
  rtc step w1 w2 ->
  dispatch (set_segments r segs) w2 = (Raise MissingRoute, w2).
Proof.
  intros Hr Hb Hsteps.
  pose proof (foreign_keys_steps r _ _ Hsteps
                (foreign_keys_built _ _ _ (reachable_inv _ Hr) Hb)) as Hf.
  assert (Hd : _dynamic_lookup (router w2) = empty_node) by apply Hf.
  unfold dispatch. unfold mbind, M_bind, bind, get_static. simpl.
  rewrite (foreign_keys_contains r (set_segments r segs) w2 Hf eq_refl).
  unfold _dispatch_dynamic, get_segments. simpl. unfold_M.
  rewrite Hd, walk_empty. reflexivity.
Qed.

Lemma dispatch_with_segments_misses_witness :
  fst (dispatch (set_segments (mkRoute 1 StaticRoute [Lit "a"] None None None) [Lit "a"])
         (mkWorld 2
            (mkRouter [(mkRoute 0 StaticRoute [Lit "a"] None None None, 1)] empty_node)))
  = Raise MissingRoute.
Proof.
  rewrite (dispatch_with_segments_misses
             (snd (register "/a" 1 false initial_world))
             (mkWorld 2 (mkRouter [(mkRoute 0 StaticRoute [Lit "a"] None None None, 1)] empty_node))
             (mkWorld 2 (mkRouter [(mkRoute 0 StaticRoute [Lit "a"] None None None, 1)] empty_node))
             (mkRoute 1 StaticRoute [Lit "a"] None None None) [Lit "a"]
             reachable_example
             (or_introl (ex_intro _ "/a" eq_refl))
             (rtc_refl _ _)).
  reflexivity.
Defined.

(** ** The tree built by the dynamic branch of [register] *)

Lemma lookup_set_child (node child : Node) (key key' : Key) :
  children (set_child node key child) !! key'
  = if decide (key = key') then Some child else children node !! key'.
Proof. unfold set_child. simpl. apply lookup_insert. Qed.

(** X10.  The loop of [register] over the segments links the path it
    walks: afterwards the keys lead from the root to the node the loop ended
    on, walking them again changes nothing, and every node that was in the
    tree is still reached by the same keys, with the same terminator. *)
Theorem extend_links_path (keys : list Key) :
  forall node root final,
    extend node keys = (root, final) ->
    descend root keys = Some final
    /\ extend root keys = (root, final)
    /\ forall ks n,
         descend node ks = Some n ->
         exists n', descend root ks = Some n' /\ terminator n' = terminator n.
Proof.
  induction keys as [|key rest IH]; intros node root final H.
  - simpl in H. simplify_eq. split_and!; [done..|]. eauto.
  - simpl in H.
    assert (Hstep : exists child0 child',
               (children node !! key = Some child0
                \/ (children node !! key = None /\ child0 = empty_node))
               /\ extend child0 rest = (child', final)
               /\ root = set_child node key child').
    { destruct (children node !! key) as [child|] eqn:E.
      - destruct (extend child rest) as [c' f] eqn:E'. simplify_eq.
        exists child, c'. eauto.
      - destruct (extend empty_node rest) as [c' f] eqn:E'. simplify_eq.
        exists empty_node, c'. eauto. }
    destruct Hstep as (child0 & child' & Hchild & Hext & ->).
    destruct (IH _ _ _ Hext) as (Hd & Hi & Hp).
    split_and!.
    + simpl. rewrite lookup_insert_eq. exact Hd.
    + simpl. rewrite lookup_insert_eq, Hi.
      rewrite set_child_id; [done|]. simpl. by rewrite lookup_insert_eq.
    + intros ks n Hks. destruct ks as [|k ks].
      * simpl in Hks. simplify_eq. eexists. split; [reflexivity|done].
      * cbn [descend] in *. rewrite lookup_set_child.
        destruct (decide (key = k)) as [->|Hne].
        -- destruct Hchild as [Hc|[Hc _]]; rewrite Hc in Hks; [|discriminate].
           by apply Hp.
        -- destruct (children node !! k); [|discriminate]. eauto.
Qed.

Lemma extend_links_path_witness :
  descend (fst (extend empty_node [KLit "users"; CAPTURE_SEGMENT]))
          [KLit "users"; CAPTURE_SEGMENT]
  = Some empty_node.
Proof.
  apply (extend_links_path [KLit "users"; CAPTURE_SEGMENT] empty_node).
  reflexivity.
Defined.

(** Linking nodes never makes the walk of [_dispatch_dynamic] find a route
    it did not find before. *)
Lemma extend_walk_sound (keys : list Key) :
  forall node root final segs r,
    extend node keys = (root, final) ->
    walk root segs = Ok r ->
    walk node segs = Ok r.
Proof.
  induction keys as [|key rest IH]; intros node root final segs r H Hw.
  - simpl in H. by simplify_eq.
  - simpl in H.
    assert (Hstep : exists child',
               root = set_child node key child'
               /\ forall segs' r',
                    walk child' segs' = Ok r' ->
                    exists child, children node !! key = Some child
                                  /\ walk child segs' = Ok r').
    { destruct (children node !! key) as [child|] eqn:E.
      - destruct (extend child rest) as [c' f] eqn:E'. simplify_eq.
        exists c'. split; [done|]. intros segs' r' Hw'. exists child. eauto.
      - destruct (extend empty_node rest) as [c' f] eqn:E'. simplify_eq.
        exists c'. split; [done|]. intros segs' r' Hw'.
        apply (IH _ _ _ _ _ E') in Hw'. by rewrite walk_empty in Hw'. }
    destruct Hstep as (child' & -> & Hchild).
    destruct segs as [|segment segs]; [exact Hw|].
    simpl in Hw. simpl.
    destruct segment as [s|n]; simpl in *.
    + rewrite lookup_insert in Hw.
      destruct (decide (key = KLit s)) as [->|Hne].
      * apply Hchild in Hw as (child & -> & Hw). exact Hw.
      * destruct (children node !! KLit s) as [c|]; [exact Hw|].
        rewrite lookup_insert in Hw.
        destruct (decide (key = CAPTURE_SEGMENT)) as [->|Hne'].
        -- apply Hchild in Hw as (child & -> & Hw). exact Hw.
        -- exact Hw.
    + rewrite lookup_insert in Hw.
      destruct (decide (key = CAPTURE_SEGMENT)) as [->|Hne'].
      * apply Hchild in Hw as (child & -> & Hw). exact Hw.
      * exact Hw.
Qed.

Lemma a_x_world_not_stored :
  not_stored route_a_b_y (_dynamic_lookup (router a_x_world)).
Proof.
  intros keys n r Hd Ht. simpl in Hd.
  destruct keys as [|k1 keys]; simpl in Hd; [by simplify_eq|].
  destruct (_ !! k1) as [n1|] eqn:E1; [|discriminate].
  apply lookup_singleton_Some in E1 as [<- <-].
  destruct keys as [|k2 keys]; simpl in Hd; [by simplify_eq|].
  destruct (_ !! k2) as [n2|] eqn:E2; [|discriminate].
  apply lookup_singleton_Some in E2 as [<- <-].
  destruct keys as [|k3 keys]; simpl in Hd.
  - simplify_eq. simpl in Ht. simplify_eq. simpl. lia.
  - by rewrite lookup_empty in Hd.
Qed.

(** X11.  Registering a dynamic route object that is not itself stored in
    the tree never makes [dispatch] return a handler it did not return
    before, for any incoming route and from any state: the branch only
    links nodes and stores no terminator.  It can make [dispatch] lose a
    route: once [/a/b/{y}] is registered, the path [/a/b] no longer reaches
    the route [/a/{x}] of the tree. *)
Theorem dynamic_registration_adds_no_match :
  (forall route h allow_overwrite w incoming h',
     cls route = DynamicRoute ->
     not_stored route (_dynamic_lookup (router w)) ->
     fst (dispatch incoming (snd (register_route route h allow_overwrite w))) = Ok h' ->
     fst (dispatch incoming w) = Ok h')
  /\ not_stored route_a_b_y (_dynamic_lookup (router a_x_world))
  /\ fst (dispatch route_a_b a_x_world) = Ok 1
  /\ fst (register_route route_a_b_y 5 false a_x_world) = Ok tt
  /\ fst (dispatch route_a_b (snd (register_route route_a_b_y 5 false a_x_world)))
     = Raise MissingRoute.
Proof.
  split; [|split; [exact a_x_world_not_stored|by vm_compute]].
  intros route h ow w incoming h' Hc _.
  pose proof (register_route_dynamic_frame route h ow w Hc) as Hstatic.
  assert (Hdyn : forall segs r,
             walk (_dynamic_lookup (router (snd (register_route route h ow w)))) segs = Ok r ->
             walk (_dynamic_lookup (router w)) segs = Ok r).
  { intros segs r. unfold register_route. rewrite Hc.
    unfold get_segments. simpl. unfold_M.
    destruct (segments route) as [rs|]; [|done].
    destruct (extend _ _) as [root final] eqn:E. simpl.
    destruct (_ && _); simpl; by apply (extend_walk_sound _ _ _ _ _ _ E). }
  destruct (register_route route h ow w) as [res w']. simpl in *.
  unfold dispatch, _dispatch_dynamic, get_segments, get_handler. unfold_M.
  rewrite Hstatic.
  destruct (dict_contains _ _); [done|].
  destruct (segments incoming) as [segs|]; [|done].
  destruct (walk (_dynamic_lookup (router w')) segs) as [r|e] eqn:Hw; [|done].
  rewrite (Hdyn _ _ Hw). destruct (handler r); done.
Qed.

Lemma dynamic_registration_adds_no_match_witness :
  fst (dispatch (mkRoute 5 StaticRoute [Lit "a"; Lit "z"] (Some [Lit "a"; Lit "z"]) None None)
         a_x_world)
  = Ok 1.
Proof.
  apply (proj1 dynamic_registration_adds_no_match
           route_a_b_y 5 false a_x_world
           (mkRoute 5 StaticRoute [Lit "a"; Lit "z"] (Some [Lit "a"; Lit "z"]) None None)
           1).
  - reflexivity.
  - exact a_x_world_not_stored.
  - reflexivity.
Defined.

(** ** The static lookup and the identity of routes *)







(** ** Splitting, joining and the display form *)

Lemma str_split_cons (s : string) : exists hd tl, str_split "/" s = hd :: tl.
Proof.
  induction s as [|a s (hd & tl & IH)]; simpl; [by eauto|].
  destruct (Ascii.eqb a "/"); [by eauto|]. rewrite IH. eauto.
Qed.

Lemma str_join_cons (sep p q : string) (l : list string) :
  str_join sep (p :: q :: l) = p ++ sep ++ str_join sep (q :: l).
Proof. reflexivity. Qed.

Lemma str_join_split (s : string) : str_join "/" (str_split "/" s) = s.
Proof.
  induction s as [|a s IH]; [reflexivity|].
  cbn [str_split].
  destruct (str_split_cons s) as (hd & tl & E). rewrite E in *.
  destruct (Ascii.eqb a "/") eqn:Ha.
  - apply Ascii.eqb_eq in Ha as ->.
    rewrite str_join_cons, IH. reflexivity.
  - destruct tl as [|t tl].
    + simpl in *. by rewrite IH.
    + rewrite str_join_cons in *. rewrite <- IH. reflexivity.
Qed.

Lemma str_split_slash_free (s : string) :
  Forall (fun c => slash_free c = true) (str_split "/" s).
Proof.
  induction s as [|a s IH]; simpl; [by repeat constructor|].
  destruct (Ascii.eqb a "/") eqn:Ha; [by constructor|].
  destruct (str_split "/" s) as [|hd tl].
  - repeat constructor. simpl. by rewrite Ha.
  - inversion IH; subst. constructor; [|done]. simpl. by rewrite Ha.
Qed.

Lemma fmap_str_Lit (parts : list string) : Segment___str__ <$> (Lit <$> parts) = parts.
Proof. induction parts as [|p parts IH]; [done|]. simpl. f_equal. exact IH. Qed.

Lemma str_split_slash_free_id (part : string) :
  slash_free part = true -> str_split "/" part = [part].
Proof.
  induction part as [|a part IH]; simpl; [done|].
  intros [Ha Hp]%andb_prop. apply negb_true_iff in Ha.
  by rewrite Ha, (IH Hp).
Qed.

Lemma str_split_app (part rest : string) :
  slash_free part = true ->
  str_split "/" (part ++ "/" ++ rest) = part :: str_split "/" rest.
Proof.
  induction part as [|a part IH]; simpl; [done|].
  intros [Ha Hp]%andb_prop. apply negb_true_iff in Ha.
  rewrite Ha. simpl in IH. by rewrite (IH Hp).
Qed.

(** Splitting undoes joining, for parts without slash. *)
Lemma str_split_join (parts : list string) :
  parts <> [] ->
  Forall (fun c => slash_free c = true) parts ->
  str_split "/" (str_join "/" parts) = parts.
Proof.
  induction parts as [|p parts IH]; [done|]. intros _ HF.
  inversion HF as [|? ? Hp HF']; subst.
  destruct parts as [|q parts].
  - simpl. by apply str_split_slash_free_id.
  - rewrite str_join_cons, (str_split_app _ _ Hp), IH; done.
Qed.

(** X13.  [parse] raises [IndexError] on the empty path and nothing else.
    On any other path it returns a new [_StaticRoute], all slots but the
    hash unset, over segments that contain no slash and that, joined with
    slashes, give the path back: after one slash when the path begins with
    a slash (the one [parse] drops), as they are when it does not.  No
    other list of slash-free parts joins to the same text. *)
Theorem parse_segments_round_trip (path : string) (w : World) :
  (path = "" -> parse path w = (Raise IndexError, w))
  /\ (path <> "" ->
      exists parts,
        parse path w
        = (Ok (mkRoute (heap_next w) StaticRoute (Lit <$> parts) None None None),
           mkWorld (S (heap_next w)) (router w))
        /\ parts <> []
        /\ Forall (fun c => slash_free c = true) parts
        /\ path = (if begins_with_slash path
                   then "/" ++ str_join "/" parts
                   else str_join "/" parts)
        /\ forall parts',
             parts' <> [] ->
             Forall (fun c => slash_free c = true) parts' ->
             str_join "/" parts' = str_join "/" parts ->
             parts' = parts).
Proof.
  split; [by intros ->|].
  intros Hne. destruct path as [|c rest]; [done|].
  assert (Huniq : forall s parts',
             parts' <> [] ->
             Forall (fun c => slash_free c = true) parts' ->
             str_join "/" parts' = str_join "/" (str_split "/" s) ->
             parts' = str_split "/" s).
  { intros s parts' Hn HF Hj. rewrite str_join_split in Hj.
    by rewrite <- Hj, str_split_join. }
  assert (Hnil : forall s, str_split "/" s <> []).
  { intros s. by destruct (str_split_cons s) as (hd & tl & ->). }
  unfold parse, begins_with_slash. destruct (Ascii.eqb c "/") eqn:Hc.
  - apply Ascii.eqb_eq in Hc as ->.
    exists (str_split "/" rest). rewrite StaticRoute___init___eq.
    split_and!; [reflexivity|apply Hnil|apply str_split_slash_free| |apply Huniq].
    by rewrite str_join_split.
  - exists (str_split "/" (String c rest)). rewrite StaticRoute___init___eq.
    split_and!; [reflexivity|apply Hnil|apply str_split_slash_free| |apply Huniq].
    by rewrite str_join_split.
Qed.

Lemma parse_segments_round_trip_witness :
  exists parts,
    parse "/users/42" initial_world
    = (Ok (mkRoute 0 StaticRoute (Lit <$> parts) None None None), mkWorld 1 new_router)
    /\ parts <> []
    /\ Forall (fun c => slash_free c = true) parts
    /\ "/users/42" = "/" ++ str_join "/" parts
    /\ forall parts',
         parts' <> [] ->
         Forall (fun c => slash_free c = true) parts' ->
         str_join "/" parts' = str_join "/" parts ->
         parts' = parts.
Proof.
  apply (proj2 (parse_segments_round_trip "/users/42" initial_world)).
  discriminate.
Defined.

(** X14.  [__repr__] shows a route whose segments are the components of a
    path as [<class (/path)>]; on a route built by [parse] or [make] it
    raises [AttributeError], the segments being unset. *)
Theorem repr_shows_path (r : Route) (w : World) :
  (forall path,
     segments r = Some (Lit <$> str_split "/" path) ->
     Route___repr__ r w = (Ok ("<" ++ class_name (cls r) ++ " (/" ++ path ++ ")>"), w))
  /\ (forall w0 w1, built w0 r w1 -> Route___repr__ r w = (Raise AttributeError, w)).
Proof.
  split.
  - intros path Hs. unfold Route___repr__, get_segments. rewrite Hs.
    unfold_M. by rewrite fmap_str_Lit, str_join_split.
  - intros w0 w1 [Hr _]%built_inv.
    unfold Route___repr__, get_segments. by rewrite Hr.
Qed.

Lemma repr_shows_path_witness :
  Route___repr__ route_a_b initial_world = (Ok "<_StaticRoute (/a/b)>", initial_world)
  /\ Route___repr__ (mkRoute 0 StaticRoute [Lit "a"; Lit "b"] None None None) initial_world
     = (Raise AttributeError, initial_world).
Proof.
  split.
  - apply (proj1 (repr_shows_path route_a_b initial_world) "a/b"). reflexivity.
  - apply (proj2 (repr_shows_path (mkRoute 0 StaticRoute [Lit "a"; Lit "b"] None None None)
                    initial_world) initial_world (mkWorld 1 new_router)).
    left. exists "/a/b". reflexivity.
Defined.

(** ** Extracting the captures *)

Lemma captures_loop_index_error (items : list (nat * string)) (segs : list Segment) :
  forall captures,
    Exists (fun item => List.length segs <= fst item) items ->
    captures_loop items segs captures = Raise IndexError.
Proof.
  induction items as [|[i name] items IH]; intros captures H; [by inversion H|].
  simpl. destruct (segs !! i) as [v|] eqn:E; [|reflexivity].
  apply IH. inversion H as [? ? Hi|]; subst; [|done].
  apply lookup_lt_Some in E. simpl in Hi. lia.
Qed.

Lemma captures_loop_ok (items : list (nat * string)) (segs : list Segment) :
  forall captures,
    Forall (fun item => fst item < List.length segs) items ->
    exists m,
      captures_loop items segs captures = Ok m
      /\ (forall name v,
            m !! name = Some v ->
            captures !! name = Some v
            \/ exists i, (i, name) ∈ items /\ segs !! i = Some v)
      /\ (forall name, name ∉ items.*2 -> m !! name = captures !! name)
      /\ (forall i name,
            (i, name) ∈ items ->
            (forall j, (j, name) ∈ items -> j = i) ->
            m !! name = segs !! i).
Proof.
  induction items as [|[i0 n0] items IH]; intros captures HF.
  - exists captures. split_and!; [done|by eauto|done|].
    intros i name H. by apply elem_of_nil in H.
  - inversion HF as [|? ? Hi HF']; subst. simpl in Hi.
    destruct (lookup_lt_is_Some_2 segs i0 Hi) as [v0 Hv0].
    destruct (IH (<[n0 := v0]> captures) HF') as (m & Hm & H1 & H2 & H3).
    exists m. simpl. rewrite Hv0. split_and!; [exact Hm| | |].
    + intros name v Hname. destruct (H1 _ _ Hname) as [Hc|(i & Hin & Hs)].
      * destruct (decide (n0 = name)) as [->|Hne].
        -- rewrite lookup_insert_eq in Hc. simplify_eq.
           right. exists i0. split; [left|done].
        -- rewrite lookup_insert_ne in Hc by done. by left.
      * right. exists i. split; [by right|done].
    + intros name Hname. apply not_elem_of_cons in Hname as [Hne Hname].
      rewrite (H2 _ Hname). by rewrite lookup_insert_ne.
    + intros i name Hin Huniq.
      destruct (decide (name ∈ items.*2)) as [Hn|Hn].
      * apply list_elem_of_fmap in Hn as ([j n'] & -> & Hj). simpl in *.
        assert (j = i) as -> by (apply Huniq; by right).
        apply H3; [done|]. intros j' Hj'. apply Huniq. by right.
      * apply elem_of_cons in Hin as [Heq|Hin].
        -- simplify_eq. rewrite (H2 _ Hn). by rewrite lookup_insert_eq.
        -- exfalso. apply Hn. apply list_elem_of_fmap. by exists (i, name).
Qed.

Lemma captures_loop_app (l1 l2 : list (nat * string)) (segs : list Segment) :
  forall captures,
    captures_loop (l1 ++ l2) segs captures
    = rbind (captures_loop l1 segs captures) (fun m1 => captures_loop l2 segs m1).
Proof.
  induction l1 as [|[i name] l1 IH]; intros captures; simpl; [done|].
  destruct (segs !! i); [apply IH|done].
Qed.

(** The last item of a name decides what the name is bound to. *)
Lemma captures_loop_last (l1 l2 : list (nat * string)) (segs : list Segment)
    (i : nat) (name : string) (captures m : gmap string Segment) :
  Forall (fun item => fst item < List.length segs) l2 ->
  name ∉ l2.*2 ->
  captures_loop (l1 ++ (i, name) :: l2) segs captures = Ok m ->
  m !! name = segs !! i.
Proof.
  intros HF Hlast. rewrite captures_loop_app.
  destruct (captures_loop l1 segs captures) as [m1|]; simpl; [|discriminate].
  destruct (segs !! i) as [v|]; [|discriminate].
  destruct (captures_loop_ok l2 segs (<[name := v]> m1) HF) as (m' & -> & _ & H2 & _).
  intros [= <-]. by rewrite (H2 _ Hlast), lookup_insert_eq.
Qed.

Lemma elem_of_items_in_order (cm : gmap nat string) (order : list nat)
    (i : nat) (name : string) :
  (i, name) ∈ items_in_order cm order <-> i ∈ order /\ cm !! i = Some name.
Proof.
  unfold items_in_order. rewrite list_elem_of_omap. split.
  - intros (j & Hj & Hf). destruct (cm !! j) as [n|] eqn:E; simpl in Hf; [|done].
    by simplify_eq.
  - intros [Hi Hc]. exists i. by rewrite Hc.
Qed.

(** X15.  [extract_captures] reads the segments of the incoming route, then
    the capture map of the route, and raises [AttributeError] when either
    slot is unset.  With both in place, and the items of the capture map
    taken in the order its keys were inserted, it raises [IndexError] when
    a captured position lies past the end of the incoming segments;
    otherwise it returns the dictionary that binds every name of the
    capture map to the incoming segment at the position inserted last
    under that name, and binds no other name. *)
Theorem extract_captures_spec (self : Route) (order : list nat)
    (static_route : Route) (w : World) :
  (segments static_route = None \/ capture_map self = None ->
   extract_captures self order static_route w = (Raise AttributeError, w))
  /\ forall cm segs,
       capture_map self = Some cm ->
       segments static_route = Some segs ->
       is_insertion_order cm order ->
       ((exists i name, cm !! i = Some name /\ List.length segs <= i) ->
        extract_captures self order static_route w = (Raise IndexError, w))
       /\ ((forall i name, cm !! i = Some name -> i < List.length segs) ->
           exists m,
             extract_captures self order static_route w = (Ok m, w)
             /\ (forall before i after name,
                   order = (before ++ i :: after)%list ->
                   cm !! i = Some name ->
                   (forall j, j ∈ after -> cm !! j <> Some name) ->
                   m !! name = segs !! i)
             /\ (forall name,
                   (forall i, cm !! i <> Some name) -> m !! name = None)).
Proof.
  unfold extract_captures, get_segments, get_capture_map. unfold_M. split.
  - intros [H|H].
    + by rewrite H.
    + rewrite H. by destruct (segments static_route).
  - intros cm segs Hcm Hsegs [Hnodup Hkeys]. rewrite Hcm, Hsegs. split.
    + intros (i & name & Hi & Hlen).
      rewrite captures_loop_index_error; [done|].
      apply List.Exists_exists. exists (i, name). split; [|done].
      apply list_elem_of_In, elem_of_items_in_order. split; [|done].
      apply Hkeys. by eexists.
    + intros Hrange.
      assert (HF : forall o, Forall (fun item => fst item < List.length segs)
                               (items_in_order cm o)).
      { intros o. apply List.Forall_forall. intros [i name] Hin. simpl.
        apply list_elem_of_In, elem_of_items_in_order in Hin as [_ Hin]. eauto. }
      destruct (captures_loop_ok (items_in_order cm order) segs ∅ (HF order))
        as (m & Hm & _ & H2 & _).
      exists m. rewrite Hm. split_and!; [done| |].
      * intros before i after name -> Hi Hafter.
        unfold items_in_order in Hm. rewrite omap_app in Hm. simpl in Hm.
        rewrite Hi in Hm. simpl in Hm.
        eapply captures_loop_last; [apply (HF after)| |exact Hm].
        intros Hin. apply list_elem_of_fmap in Hin as ([j n] & Heq & Hin).
        simpl in Heq. subst n.
        apply elem_of_items_in_order in Hin as [Hj Hc]. by eapply Hafter.
      * intros name Hname. rewrite (H2 name); [apply lookup_empty|].
        intros Hin. apply list_elem_of_fmap in Hin as ([j n] & Heq & Hin).
        simpl in Heq. subst n.
        apply elem_of_items_in_order in Hin as [_ Hc]. by eapply Hname.
Qed.

Lemma route_n_n_order :
  is_insertion_order (<[0 := "n"]> ({[2 := "n"]} : gmap nat string)) [0; 2].
Proof.
  split.
  - constructor; [|constructor; [|constructor]].
    + intros H%list_elem_of_singleton. discriminate H.
    + apply not_elem_of_nil.
  - intros index. rewrite lookup_insert_is_Some, lookup_singleton_is_Some.
    rewrite !elem_of_cons, elem_of_nil. split.
    + intros [->|[->|[]]]; [by left|]. right. split; [discriminate|done].
    + intros [<-|[_ <-]]; [by left|]. right. by left.
Qed.

Lemma extract_captures_spec_witness :
  exists m,
    extract_captures route_n_n [0; 2] incoming_a_b_c initial_world
    = (Ok m, initial_world)
    /\ m !! "n" = Some (Lit "c").
Proof.
  destruct (proj2 (proj2 (extract_captures_spec route_n_n [0; 2] incoming_a_b_c
                            initial_world)
                     (<[0 := "n"]> {[2 := "n"]})
                     [Lit "a"; Lit "b"; Lit "c"] eq_refl eq_refl route_n_n_order))
    as (m & Hm & H & _).
  - intros i name Hi. apply lookup_insert_Some in Hi as [[<- _]|[_ Hi]].
    + simpl. lia.
    + apply lookup_singleton_Some in Hi as [<- _]. simpl. lia.
  - exists m. split; [exact Hm|].
    apply (H [0] 2 [] "n").
    + reflexivity.
    + reflexivity.
    + intros j Hj. by apply elem_of_nil in Hj.
Defined.

(** ** Doubled braces *)

Lemma scan_brace_app_r (lit rest : string) (b : ascii) :
  brace_free lit = true -> is_brace b = true ->
  scan_brace (lit ++ String b rest) = (lit, Some (b, rest)).
Proof.
  intros Hlit Hb. induction lit as [|a lit IH]; simpl.
  - by rewrite Hb.
  - simpl in Hlit. apply andb_prop in Hlit as [Ha Hlit].
    apply negb_true_iff in Ha. rewrite Ha, (IH Hlit). reflexivity.
Qed.

Lemma str_length_app (s t : string) :
  String.length (s ++ t) = String.length s + String.length t.
Proof. induction s as [|a s IH]; simpl; [done|]. by rewrite IH. Qed.

Lemma formatter_parse_doubled (lit rest : string) (b : ascii) :
  brace_free lit = true -> is_brace b = true ->
  formatter_parse (lit ++ String b (String b rest))
  = rbind (formatter_parse rest)
      (fun ts => Ok ((lit ++ String b "", None, None, None) :: ts)).
Proof.
  intros Hlit Hb. unfold formatter_parse at 1. cbn [formatter_loop].
  assert (Hm : markup_next (lit ++ String b (String b rest))
               = Ok (Some ((lit ++ String b "", None, None, None), rest))).
  { unfold markup_next.
    destruct (lit ++ String b (String b rest)) as [|a s] eqn:E.
    - by destruct lit.
    - rewrite <- E, (scan_brace_app_r _ _ _ Hlit Hb), Ascii.eqb_refl. reflexivity. }
  rewrite Hm. simpl.
  rewrite (formatter_fuel _ (S (String.length rest)) rest);
    [reflexivity| |lia].
  rewrite str_length_app. simpl. lia.
Qed.

(** X16.  In a template a doubled brace stands for one brace, but only at
    the very end of a component: [make] takes [lit{{] (or [lit}}]) as the
    literal segment [lit{] (or [lit}]), and refuses a component in which
    text follows the doubled brace, as having several captures. *)
Theorem make_doubled_brace (lit : string) (b : ascii) :
  brace_free lit = true ->
  is_brace b = true ->
  make_segment (lit ++ String b (String b "")) = Ok (Lit (lit ++ String b ""))
  /\ forall more,
       more <> "" -> brace_free more = true ->
       make_segment (lit ++ String b (String b more))
       = Raise (ValueError MultipleCaptures).
Proof.
  intros Hlit Hb. split.
  - unfold make_segment. rewrite (formatter_parse_doubled _ _ _ Hlit Hb). simpl.
    rewrite bool_decide_eq_false_2; [done|]. by destruct lit.
  - intros more Hne Hbf. unfold make_segment.
    rewrite (formatter_parse_doubled _ _ _ Hlit Hb).
    rewrite (formatter_parse_literal more Hne Hbf). reflexivity.
Qed.

Lemma make_doubled_brace_witness :
  make_segment "a{{" = Ok (Lit "a{")
  /\ make_segment "a{{b" = Raise (ValueError MultipleCaptures).
Proof.
  split.
  - apply (proj1 (make_doubled_brace "a" "{" eq_refl eq_refl)).
  - apply (proj2 (make_doubled_brace "a" "{" eq_refl eq_refl) "b");
      [discriminate|reflexivity].
Defined.

(** ** The static lookup over time *)

Lemma dict_contains_get (d : RouteDict) (key : Route) :
  dict_contains d key = true ->
  exists stored h,
    In (stored, h) d /\ key_match stored key = true /\ dict_get d key = Ok h.
Proof.
  unfold dict_contains, dict_get. induction d as [|[k v] d IH]; simpl; [discriminate|].
  destruct (key_match k key) eqn:E; simpl.
  - intros _. exists k, v. eauto.
  - intros (stored & h & Hin & Hm & Hg)%IH. exists stored, h. eauto.
Qed.

(** X17.  The static lookup takes precedence: when the incoming route is
    found among its keys, [dispatch] returns the handler stored with the
    matching key and leaves the router alone, whatever the tree holds and
    whether or not the walk of the tree would succeed. *)
Theorem dispatch_static_precedence (incoming : Route) (w : World) :
  dict_contains (_static_lookup (router w)) incoming = true ->
  exists stored h,
    In (stored, h) (_static_lookup (router w))
    /\ key_match stored incoming = true
    /\ dispatch incoming w = (Ok h, w).
Proof.
  intros Hc. destruct (dict_contains_get _ _ Hc) as (stored & h & Hin & Hm & Hg).
  exists stored, h. split_and!; [done..|].
  unfold dispatch. unfold_M. by rewrite Hc, Hg.
Qed.

Lemma dispatch_static_precedence_witness :
  exists stored h,
    In (stored, h) [(route_a_b, 9)]
    /\ key_match stored route_a_b = true
    /\ dispatch route_a_b
         (mkWorld 3 (mkRouter [(route_a_b, 9)] (_dynamic_lookup (router a_x_world))))
       = (Ok h, mkWorld 3 (mkRouter [(route_a_b, 9)] (_dynamic_lookup (router a_x_world)))).
Proof.
  apply (dispatch_static_precedence route_a_b
           (mkWorld 3 (mkRouter [(route_a_b, 9)] (_dynamic_lookup (router a_x_world))))).
  reflexivity.
Defined.

Lemma step_static_grows (w w' : World) :
  router_inv w -> step w w' ->
  exists added,
    _static_lookup (router w') = (_static_lookup (router w) ++ added)%list.
Proof.
  intros Hinv Hstep. revert Hinv.
  destruct Hstep as [s h ow w0|s w0|p w0|r w0]; intros Hinv.
  - pose proof (register_inv s h ow w0 Hinv) as H.
    pose proof (make_router s w0) as Hm.
    destruct (make s w0) as [[r|e] w1]; simpl in Hm.
    + destruct H as (-> & _). simpl. eauto.
    + rewrite H. simpl. rewrite Hm. exists []. by rewrite app_nil_r.
  - rewrite make_router. exists []. by rewrite app_nil_r.
  - pose proof (parse_inv p w0) as Hp.
    destruct (parse p w0) as [[r|e] w1]; simpl.
    + destruct Hp as [_ ->]. exists []. by rewrite app_nil_r.
    + destruct Hp as (_ & _ & ->). exists []. by rewrite app_nil_r.
  - rewrite dispatch_world. exists []. by rewrite app_nil_r.
Qed.

(** X18.  From any state a router can reach, whatever is done next only
    appends to the static lookup: every entry stays where it is with the
    handler it was registered with, and [allow_overwrite] never replaces
    one. *)
Theorem static_lookup_only_grows (w w' : World) :
  reachable w ->
  rtc step w w' ->
  exists added,
    _static_lookup (router w') = (_static_lookup (router w) ++ added)%list.
Proof.
  intros Hr%reachable_inv Hsteps.
  induction Hsteps as [w|w1 w2 w3 Hstep _ IH].
  - exists []. by rewrite app_nil_r.
  - destruct (step_static_grows _ _ Hr Hstep) as (l1 & E1).
    destruct (IH (step_inv _ _ Hstep Hr)) as (l2 & E2).
    exists (l1 ++ l2)%list. by rewrite E2, E1, <- app_assoc.
Qed.

Lemma static_lookup_only_grows_witness :
  exists added,
    _static_lookup
      (router (snd (register "/a" 2 true (snd (register "/a" 1 false initial_world)))))
    = (_static_lookup (router (snd (register "/a" 1 false initial_world))) ++ added)%list.
Proof.
  apply (static_lookup_only_grows _ _ reachable_example).
  apply rtc_once. constructor.
Defined.
